(** * pdf-summariser: the text helpers of [utils.py]

    A shallow embedding of the pure functions of [src/utils.py]
    ([extract_title_from_markdown], [extract_section], [chunk_content],
    [markdown_to_notion_blocks], [parse_inline_markdown]) and the proofs of
    the properties the specification states about them.

    Modelling choices.
    - A Python [str] is a [list ascii]: the characters are the code points
      below 256.  On that range the character classes used by the code are
      exact: [str.strip] and the regex class [\s] both use Python's
      [str.isspace], and [\d] is [0-9].
    - Python integers are [Z]; slice bounds follow Python's rules (negative
      bounds count from the end, everything is clamped to the length).
    - The Notion blocks are dictionaries in the source; here they are
      constructors carrying the fields that vary.
    - [while] loops whose termination depends on the arguments run on fuel
      and return [option]; loops that advance through a list are structural
      recursions on the remaining items. *)

From Stdlib Require Import Ascii String ZArith Lia Bool Arith List.
Import ListNotations.

Local Open Scope char_scope.
Local Open Scope list_scope.

(** ** Python strings *)

Module PyStr.

Definition pystr := list ascii.

(** A string literal, as a list of characters. *)
Definition str (s : string) : pystr := list_ascii_of_string s.

(** [len(s)] *)
Definition len (s : pystr) : Z := Z.of_nat (length s).

(** [c.isspace()] for a code point below 256: TAB..CR, FS..US, space,
    NEL (0x85) and NBSP (0xA0). *)
Definition is_space (c : ascii) : bool :=
  let n := nat_of_ascii c in
  (((9 <=? n) && (n <=? 13)) || ((28 <=? n) && (n <=? 32))
   || (n =? 133) || (n =? 160))%nat.

(** The regex class [\d] on code points below 256. *)
Definition is_digit (c : ascii) : bool :=
  let n := nat_of_ascii c in ((48 <=? n) && (n <=? 57))%nat.

(** [c.lower()] for a code point below 256: A-Z and the Latin-1 capitals
    0xC0..0xDE (except the multiplication sign 0xD7) move up by 32. *)
Definition to_lower (c : ascii) : ascii :=
  let n := nat_of_ascii c in
  if (((65 <=? n) && (n <=? 90))
      || ((192 <=? n) && (n <=? 222) && negb (n =? 215)))%nat
  then ascii_of_nat (n + 32)%nat else c.

Fixpoint drop_while (p : ascii -> bool) (s : pystr) : pystr :=
  match s with
  | [] => []
  | c :: s' => if p c then drop_while p s' else s
  end.

Fixpoint take_while (p : ascii -> bool) (s : pystr) : pystr :=
  match s with
  | [] => []
  | c :: s' => if p c then c :: take_while p s' else []
  end.

(** [s.lstrip()], [s.rstrip()], [s.strip()] *)
Definition lstrip (s : pystr) : pystr := drop_while is_space s.
Definition rstrip (s : pystr) : pystr := rev (drop_while is_space (rev s)).
Definition strip (s : pystr) : pystr := rstrip (lstrip s).

(** [s.startswith(p)] *)
Fixpoint startswith (p s : pystr) : bool :=
  match p, s with
  | [], _ => true
  | _ :: _, [] => false
  | a :: p', b :: s' => Ascii.eqb a b && startswith p' s'
  end.

(** [s.split(sep)] for a one-character separator: never empty. *)
Fixpoint split (sep : ascii) (s : pystr) : list pystr :=
  match s with
  | [] => [[]]
  | c :: s' =>
      if Ascii.eqb c sep then [] :: split sep s'
      else match split sep s' with
           | [] => [[c]]
           | w :: ws => (c :: w) :: ws
           end
  end.

(** [sep.join(parts)] *)
Fixpoint join (sep : pystr) (parts : list pystr) : pystr :=
  match parts with
  | [] => []
  | [p] => p
  | p :: ps => p ++ sep ++ join sep ps
  end.

(** A slice bound [i] normalised against a sequence of length [n], as
    Python does for [s[i:]] and [s[:i]]. *)
Definition slice_bound (n : nat) (i : Z) : nat :=
  if (i <? 0)%Z then Z.to_nat (Z.max 0 (Z.of_nat n + i))
  else Nat.min n (Z.to_nat i).

(** [s[:e]] and [s[b:]] *)
Definition slice_to (s : pystr) (e : Z) : pystr :=
  firstn (slice_bound (length s) e) s.
Definition slice_from (s : pystr) (b : Z) : pystr :=
  skipn (slice_bound (length s) b) s.

(** The scan behind [rfind]: [i] is the index of the head of [s], [found]
    the last index seen so far that holds [c]. *)
Fixpoint rfind_aux (c : ascii) (s : pystr) (i found : Z) : Z :=
  match s with
  | [] => found
  | x :: s' => rfind_aux c s' (i + 1) (if Ascii.eqb x c then i else found)
  end.

(** [s.rfind(c, 0, stop)]: the highest index below [stop] that holds [c],
    or [-1]. *)
Definition rfind (c : ascii) (s : pystr) (stop : Z) : Z :=
  rfind_aux c (slice_to s stop) 0 (-1).

(** [s.split()]: the whitespace-delimited words of [s].  [cur] is the word
    being read. *)
Fixpoint split_ws (cur s : pystr) : list pystr :=
  match s with
  | [] => match cur with [] => [] | _ => [cur] end
  | c :: s' =>
      if is_space c
      then match cur with [] => split_ws [] s' | _ => cur :: split_ws [] s' end
      else split_ws (cur ++ [c]) s'
  end.

Definition words (s : pystr) : list pystr := split_ws [] s.

End PyStr.

Import PyStr.

(** ** [chunk_content] *)

(** The cut position chosen by one round of the loop: the last space among
    the first [chunk_size] characters when it is not at index 0, else
    [chunk_size] itself. *)
Definition chunk_cut (content : pystr) (chunk_size : Z) : Z :=
  let chunk_end := chunk_size in
  let last_space := rfind " " content chunk_size in
  if (0 <? last_space)%Z then last_space else chunk_end.

(** What one round appends to [chunks], and the content it leaves. *)
Definition chunk_emit (content : pystr) (chunk_size : Z) : pystr :=
  strip (slice_to content (chunk_cut content chunk_size)).
Definition chunk_rest (content : pystr) (chunk_size : Z) : pystr :=
  strip (slice_from content (chunk_cut content chunk_size)).

(** The [while len(content) > 0] loop; the result lists the chunks in the
    order they are appended.  [None]: the fuel ran out before the loop
    ended. *)
Fixpoint chunk_loop (fuel : nat) (content : pystr) (chunk_size : Z)
    : option (list pystr) :=
  match fuel with
  | O => None
  | S fuel' =>
      if (0 <? len content)%Z then
        if (len content <=? chunk_size)%Z then Some [content]
        else
          match chunk_loop fuel' (chunk_rest content chunk_size) chunk_size with
          | Some chunks => Some (chunk_emit content chunk_size :: chunks)
          | None => None
          end
      else Some []
  end.

(** [chunk_content(content, chunk_size)], with one round of fuel per
    character of [content] and one for the exit test. *)
Definition chunk_content (content : pystr) (chunk_size : Z)
    : option (list pystr) :=
  chunk_loop (S (length content)) content chunk_size.

(** The default of the [chunk_size] parameter. *)
Definition chunk_size_default : Z := 2000.

(** ** Rich text and the regex of [parse_inline_markdown] *)

Inductive annotation := bold | italic | strikethrough.

(** One entry of a [rich_text] list: [{"type": "text", "text": {"content":
    c}}], with an ["annotations"] key only on a styled run. *)
Record rich_text_item := mk_rich_text {
  content : pystr;
  annotations : option annotation
}.

Definition plain (t : pystr) : rich_text_item := mk_rich_text t None.
Definition styled (a : annotation) (t : pystr) : rich_text_item :=
  mk_rich_text t (Some a).

Definition newline : ascii := "010".

(** [(.+?)close]: the shortest non-empty run of characters other than a
    line break that is followed by [close]; returns the run. *)
Fixpoint dot_plus_lazy (close s : pystr) : option pystr :=
  match s with
  | [] => None
  | c :: s' =>
      if Ascii.eqb c newline then None
      else if startswith close s' then Some [c]
      else match dot_plus_lazy close s' with
           | Some t => Some (c :: t)
           | None => None
           end
  end.

(** One alternative [delim(.+?)delim] tried at the head of [s]. *)
Definition delimited (delim s : pystr) : option pystr :=
  if startswith delim s then dot_plus_lazy delim (skipn (length delim) s)
  else None.

(** The pattern [\*\*(.+?)\*\*|__(.+?)__|~~(.+?)~~|_(.+?)_|\*(.+?)\*]
    tried at the head of [s]: the alternatives in their order; returns the
    number of the group that took part, its text and the length matched. *)
Definition match_here (s : pystr) : option (nat * pystr * nat) :=
  match delimited (str "**") s with
  | Some t => Some (1, t, length t + 4)
  | None =>
  match delimited (str "__") s with
  | Some t => Some (2, t, length t + 4)
  | None =>
  match delimited (str "~~") s with
  | Some t => Some (3, t, length t + 4)
  | None =>
  match delimited (str "_") s with
  | Some t => Some (4, t, length t + 2)
  | None =>
  match delimited (str "*") s with
  | Some t => Some (5, t, length t + 2)
  | None => None
  end end end end end.

(** A match object: [start()], [end()], and the one group that took part
    (the four others are [None]). *)
Record re_match := mk_match {
  m_start : nat;
  m_end : nat;
  m_group : nat;
  m_text : pystr
}.

(** [match.group(k)] *)
Definition group (m : re_match) (k : nat) : option pystr :=
  if Nat.eqb k (m_group m) then Some (m_text m) else None.

(** Truth value of [match.group(k)]: neither [None] nor empty. *)
Definition truthy (g : option pystr) : bool :=
  match g with Some (_ :: _) => true | _ => false end.

Definition group_text (m : re_match) (k : nat) : pystr :=
  match group m k with Some t => t | None => [] end.

(** [re.finditer(pattern, text)] from position [pos], where [s] is
    [text[pos:]]: the leftmost match, then the search goes on at its end.
    Every match takes at least three characters, so [length s] rounds of
    fuel are enough. *)
Fixpoint finditer_from (fuel pos : nat) (s : pystr) : list re_match :=
  match fuel with
  | O => []
  | S fuel' =>
      match s with
      | [] => []
      | _ :: s' =>
          match match_here s with
          | Some (g, t, n) =>
              mk_match pos (pos + n) g t
                :: finditer_from fuel' (pos + n) (skipn n s)
          | None => finditer_from fuel' (pos + 1) s'
          end
      end
  end.

Definition finditer (text : pystr) : list re_match :=
  finditer_from (length text) 0 text.

(** [text[b:e]] for positions of a match (never negative). *)
Definition slice (text : pystr) (b e : nat) : pystr :=
  firstn (e - b) (skipn b text).

(** ** [parse_inline_markdown] *)

(** The body of the [for match in re.finditer(...)] loop, on the state
    [(rich_text, last_end)]. *)
Definition inline_step (text : pystr) (st : list rich_text_item * nat)
    (m : re_match) : list rich_text_item * nat :=
  let '(rich_text, last_end) := st in
  let rich_text :=
    if (last_end <? m_start m)%nat
    then rich_text ++ [plain (slice text last_end (m_start m))]
    else rich_text in
  let rich_text :=
    if truthy (group m 1) then rich_text ++ [styled bold (group_text m 1)]
    else if truthy (group m 2) then rich_text ++ [styled bold (group_text m 2)]
    else if truthy (group m 3)
      then rich_text ++ [styled strikethrough (group_text m 3)]
    else if truthy (group m 4)
      then rich_text ++ [styled italic (group_text m 4)]
    else if truthy (group m 5)
      then rich_text ++ [styled italic (group_text m 5)]
    else rich_text in
  (rich_text, m_end m).

Definition parse_inline_markdown (text : pystr) : list rich_text_item :=
  let '(rich_text, last_end) :=
    fold_left (inline_step text) (finditer text) ([], 0%nat) in
  let rich_text :=
    if (last_end <? length text)%nat
    then rich_text ++ [plain (skipn last_end text)]
    else rich_text in
  match rich_text with
  | [] => [plain text]
  | _ => rich_text
  end.

(** ** [markdown_to_notion_blocks] *)

(** A Notion block: the constructor is the ["type"] key, [rich_text] the
    list under it; a code block also carries its ["language"]. *)
Inductive block :=
| heading_1 (rich_text : list rich_text_item)
| heading_2 (rich_text : list rich_text_item)
| heading_3 (rich_text : list rich_text_item)
| bulleted_list_item (rich_text : list rich_text_item)
| numbered_list_item (rich_text : list rich_text_item)
| code (rich_text : list rich_text_item) (language : pystr)
| paragraph (rich_text : list rich_text_item).

(** [re.match(r'^\d+\.\s', s)]: the end of the match, if any. *)
Definition match_numbered (s : pystr) : option nat :=
  match take_while is_digit s with
  | [] => None
  | ds =>
      match drop_while is_digit s with
      | "." :: c :: _ => if is_space c then Some (length ds + 2) else None
      | _ => None
      end
  end.

(** [re.sub(r'^\d+\.\s', '', s)] *)
Definition sub_numbered (s : pystr) : pystr :=
  match match_numbered s with
  | Some n => skipn n s
  | None => s
  end.

Definition is_empty {A} (l : list A) : bool :=
  match l with [] => true | _ => false end.

(** Truth value of what [re.match] returns. *)
Definition is_match {A} (m : option A) : bool :=
  match m with Some _ => true | None => false end.

Definition fence : pystr := str "```".

(** The block appended when a fenced region ends. *)
Definition code_block (code_lines : list pystr) : block :=
  code [plain (join [newline] code_lines)] (str "text").

(** The two loops of [markdown_to_notion_blocks], on the lines from index
    [i] on.  [blocks_from] is the outer [while i < len(lines)];
    [code_from] is the inner loop that gathers [code_lines] up to the
    closing fence, which the outer [i += 1] then steps over. *)
Fixpoint blocks_from (lines : list pystr) : list block :=
  match lines with
  | [] => []
  | line :: rest =>
      let stripped := strip line in
      if is_empty stripped then blocks_from rest
      else if startswith (str "### ") stripped then
        heading_3 [plain (strip (skipn 4 stripped))] :: blocks_from rest
      else if startswith (str "## ") stripped then
        heading_2 [plain (strip (skipn 3 stripped))] :: blocks_from rest
      else if startswith (str "# ") stripped then
        heading_1 [plain (strip (skipn 2 stripped))] :: blocks_from rest
      else if startswith (str "- ") stripped then
        bulleted_list_item [plain (strip (skipn 2 stripped))]
          :: blocks_from rest
      else if is_match (match_numbered stripped) then
        let content := sub_numbered stripped in
        numbered_list_item [plain (strip content)] :: blocks_from rest
      else if startswith fence stripped then code_from [] rest
      else
        let rich_text := parse_inline_markdown stripped in
        if negb (is_empty rich_text)
        then paragraph rich_text :: blocks_from rest
        else blocks_from rest
  end
with code_from (code_lines : list pystr) (lines : list pystr) : list block :=
  match lines with
  | [] => [code_block code_lines]
  | l :: rest =>
      if negb (startswith fence (strip l))
      then code_from (code_lines ++ [l]) rest
      else code_block code_lines :: blocks_from rest
  end.

Definition markdown_to_notion_blocks (markdown_text : pystr) : list block :=
  blocks_from (split newline markdown_text).

(** ** [extract_title_from_markdown] *)

(** [re.sub(r'^#+\s*', '', line)]: the pattern is anchored at the start
    of [line], so it removes something only when [line] itself begins
    with a hash. *)
Definition sub_hashes (line : pystr) : pystr :=
  if startswith (str "#") line
  then drop_while is_space (drop_while (Ascii.eqb "#") line)
  else line.

Fixpoint title_from (lines : list pystr) : option pystr :=
  match lines with
  | [] => None
  | line :: rest =>
      if startswith (str "#") (strip line)
      then Some (strip (sub_hashes line))
      else title_from rest
  end.

Definition extract_title_from_markdown (text : pystr) : option pystr :=
  title_from (split newline text).

(** ** [extract_section] *)

(** [re.escape(name)] matched without regard to case at the head of [s];
    returns what follows. *)
Fixpoint match_literal_ci (name s : pystr) : option pystr :=
  match name, s with
  | [], _ => Some s
  | _ :: _, [] => None
  | a :: name', b :: s' =>
      if Ascii.eqb (to_lower a) (to_lower b) then match_literal_ci name' s'
      else None
  end.

(** [name\s*$] at the head of [s]. *)
Definition match_name_tail (name s : pystr) : bool :=
  match match_literal_ci name s with
  | Some r => forallb is_space r
  | None => false
  end.

(** [\s*name\s*$] at the head of [s], over every length the star can
    take. *)
Fixpoint match_ws_name (name s : pystr) : bool :=
  match s with
  | c :: s' => (is_space c && match_ws_name name s') || match_name_tail name s
  | [] => match_name_tail name s
  end.

(** [#*\s*name\s*$] at the head of [s]. *)
Fixpoint match_hashes_name (name s : pystr) : bool :=
  match s with
  | c :: s' =>
      (Ascii.eqb c "#" && match_hashes_name name s') || match_ws_name name s
  | [] => match_ws_name name s
  end.

(** Whether [re.match(rf'^#+\s*{re.escape(section_name)}\s*$', stripped,
    re.IGNORECASE)] finds a match. *)
Definition match_section_heading (section_name stripped : pystr) : bool :=
  match stripped with
  | c :: s' => Ascii.eqb c "#" && match_hashes_name section_name s'
  | [] => false
  end.

(** [stripped and stripped[0] == '#'] *)
Definition starts_with_hash (stripped : pystr) : bool :=
  match stripped with
  | c :: _ => Ascii.eqb c "#"
  | [] => false
  end.

(** The [for line in lines] loop, with its [continue] and [break];
    returns [section_content] as the loop leaves it. *)
Fixpoint section_loop (section_name : pystr) (lines section_content : list pystr)
    (in_section : bool) : list pystr :=
  match lines with
  | [] => section_content
  | line :: rest =>
      let stripped := strip line in
      if match_section_heading section_name stripped then
        section_loop section_name rest section_content true
      else if in_section && starts_with_hash stripped then section_content
      else if in_section && negb (is_empty stripped) then
        section_loop section_name rest (section_content ++ [line]) in_section
      else section_loop section_name rest section_content in_section
  end.

Definition extract_section (text section_name : pystr) : option pystr :=
  let section_content :=
    section_loop section_name (split newline text) [] false in
  if negb (is_empty section_content)
  then Some (strip (join [newline] section_content))
  else None.

(** ** [add_content_to_page] and [write_to_notion] *)

(** [range(start, stop, step)] for a positive [step]. *)
Definition py_range (start stop step : nat) : list nat :=
  map (fun k => start + k * step) (seq 0 ((stop - start + step - 1) / step)).

(** [l[b:e]] for a list and bounds that are not negative. *)
Definition list_slice {A} (l : list A) (b e : nat) : list A :=
  firstn (e - b) (skipn b l).

(** A request sent through the Notion client.  [pages_create] stands for
    [notion.pages.create] with the parent database and the [Title] and
    [URL] properties; [blocks_children_append] for
    [notion.blocks.children.append] with its [block_id] and [children]. *)
Inductive notion_request :=
| pages_create (database_id title url : pystr)
| blocks_children_append (block_id : pystr) (children : list block).

(** The page object that [notion.pages.create] returns, of which the code
    reads the ['id'] key. *)
Record notion_page := mk_page { page_id : pystr }.

(** [add_content_to_page]: the requests it sends, in order, each call of
    the client being taken to return.  The token only builds the client. *)
Definition add_content_to_page (notion_token page_id content : pystr)
    : list notion_request :=
  let blocks := markdown_to_notion_blocks content in
  let chunk_size := 100 in
  map (fun i =>
         blocks_children_append page_id (list_slice blocks i (i + chunk_size)))
    (py_range 0 (length blocks) chunk_size).

(** [write_to_notion]: what it returns and the requests it sends, in
    order; [new_page] is what the API answers to the page creation. *)
Definition write_to_notion (title url content notion_token database_id : pystr)
    (new_page : notion_page) : notion_page * list notion_request :=
  let created := pages_create database_id title url in
  let appended :=
    if negb (is_empty content)
    then add_content_to_page notion_token (page_id new_page) content
    else [] in
  (new_page, created :: appended).

(** ** Notions used to state the properties *)

(** The run of characters up to the first space of [s]. *)
Definition first_run (s : pystr) : pystr :=
  take_while (fun c => negb (Ascii.eqb c " ")) s.

(** No piece of [s.split(' ')] is longer than [M]. *)
Definition tokens_within (M : Z) (s : pystr) : Prop :=
  Forall (fun t => (len t <= M)%Z) (split " " s).

(** No chunk is longer than [M]. *)
Definition chunks_within (M : Z) (chunks : list pystr) : Prop :=
  Forall (fun c => (len c <= M)%Z) chunks.

(** The words survive and the chunks are bounded, as the specification
    puts it: joined by single spaces the chunks give back the words of
    [S], and when no word of [S] is longer than [M] no chunk but the last
    is. *)
Definition chunker_keeps_words (S : pystr) (M : Z) : Prop :=
  exists chunks,
    chunk_content S M = Some chunks
    /\ words (join (str " ") chunks) = words S
    /\ (Forall (fun w => (len w <= M)%Z) (words S) ->
        chunks_within M (removelast chunks)).

(** The characters a delimiter of the inline pattern is made of. *)
Definition is_marker (c : ascii) : bool :=
  Ascii.eqb "*" c || Ascii.eqb "_" c || Ascii.eqb "~" c.

Definition no_marker (s : pystr) : bool :=
  forallb (fun c => negb (is_marker c)) s.

(** The inline pattern matches at none of the first [n] positions of
    [s]. *)
Fixpoint no_match_before (n : nat) (s : pystr) : bool :=
  match n, s with
  | S n', _ :: s' => negb (is_match (match_here s)) && no_match_before n' s'
  | _, _ => true
  end.

(** [p] occurs somewhere in [s]. *)
Fixpoint occurs (p s : pystr) : bool :=
  match s with
  | [] => startswith p []
  | _ :: s' => startswith p s || occurs p s'
  end.

(** What a pair of [**] encloses as one span: a text that is not empty,
    holds no line break, and in which no [**] begins after the first
    character, the first star of the closing pair counted in. *)
Definition bold_text (inner : pystr) : bool :=
  negb (is_empty inner)
  && forallb (fun c => negb (Ascii.eqb c newline)) inner
  && negb (occurs (str "**") (tl inner ++ str "*")).

(** The result the specification gives for a line [pre ** inner ** post]:
    one bold run for [inner] between the plain runs of [pre] and [post]. *)
Definition bold_span_result (pre inner post : pystr) : Prop :=
  parse_inline_markdown (pre ++ str "**" ++ inner ++ str "**" ++ post)
  = (if is_empty pre then [] else [plain pre])
    ++ [styled bold inner]
    ++ (if is_empty post then [] else [plain post]).

(** The plain run for the text around a match: none when it is empty. *)
Definition plain_run (t : pystr) : list rich_text_item :=
  if is_empty t then [] else [plain t].

(** The bullet item the specification describes: its runs come from the
    inline parser. *)
Definition bullet_item_inline_parsed (line : pystr) : block :=
  bulleted_list_item (parse_inline_markdown (strip (skipn 2 (strip line)))).

(** ** Notions used to state the further properties *)

(** The characters of [s] that are not whitespace, in order. *)
Definition visible (s : pystr) : pystr :=
  filter (fun c => negb (is_space c)) s.

(** [s] has no whitespace at either end: [s.strip() == s]. *)
Definition stripped_str (s : pystr) : Prop := strip s = s.

(** The characters of [s] that are not marker characters, in order. *)
Definition unmarked (s : pystr) : pystr :=
  filter (fun c => negb (is_marker c)) s.

(** The five delimiters of the inline pattern with the annotation that
    [parse_inline_markdown] gives to what they enclose. *)
Definition inline_delimiters : list (pystr * annotation) :=
  [(str "**", bold); (str "__", bold); (str "~~", strikethrough);
   (str "_", italic); (str "*", italic)].

(** The annotation given to group [g] of the pattern. *)
Definition style_of_group (g : nat) : annotation :=
  match g with
  | 1 | 2 => bold
  | 3 => strikethrough
  | _ => italic
  end.

(** The text of all the runs, end to end. *)
Definition run_text (rich_text : list rich_text_item) : pystr :=
  concat (map content rich_text).

(** The invariant of the loop of [parse_inline_markdown] on its state
    [(rich_text, last_end)]: the runs built so far are not empty and hold,
    markers apart, the text up to [last_end]. *)
Definition inline_invariant (text : pystr)
    (st : list rich_text_item * nat) : Prop :=
  let '(rich_text, last_end) := st in
  last_end <= length text
  /\ (rich_text = [] -> last_end = 0)
  /\ Forall (fun r => content r <> []) rich_text
  /\ unmarked (run_text rich_text) = unmarked (firstn last_end text).

(** What a span may enclose for the statements below: no marker
    character and no line break. *)
Definition span_inner (s : pystr) : bool :=
  forallb (fun c => negb (is_marker c) && negb (Ascii.eqb c newline)) s.

(** [s] holds no marker character, except perhaps its first character. *)
Definition no_marker_after_head (s : pystr) : Prop :=
  no_marker s = true \/ exists c s', s = c :: s' /\ no_marker s' = true.

(** [line] is a fence line: stripped, it begins with three backticks. *)
Definition is_fence_line (line : pystr) : bool :=
  startswith fence (strip line).

(** [line] is blank: nothing is left of it once stripped. *)
Definition is_blank (line : pystr) : bool := is_empty (strip line).

(** The block that one round of the outer loop appends for a line that is
    not a fence line; [None] for a blank line. *)
Definition line_block (line : pystr) : option block :=
  let stripped := strip line in
  if is_empty stripped then None
  else if startswith (str "### ") stripped then
    Some (heading_3 [plain (strip (skipn 4 stripped))])
  else if startswith (str "## ") stripped then
    Some (heading_2 [plain (strip (skipn 3 stripped))])
  else if startswith (str "# ") stripped then
    Some (heading_1 [plain (strip (skipn 2 stripped))])
  else if startswith (str "- ") stripped then
    Some (bulleted_list_item [plain (strip (skipn 2 stripped))])
  else if is_match (match_numbered stripped) then
    Some (numbered_list_item [plain (strip (sub_numbered stripped))])
  else Some (paragraph (parse_inline_markdown stripped)).

(** The [rich_text] list of a block, and whether it is a code block. *)
Definition rich_text_of (b : block) : list rich_text_item :=
  match b with
  | heading_1 r | heading_2 r | heading_3 r
  | bulleted_list_item r | numbered_list_item r
  | code r _ | paragraph r => r
  end.

Definition is_code (b : block) : bool :=
  match b with code _ _ => true | _ => false end.

(** The shape of a block of the output: a paragraph has at least one run;
    any other block has exactly one run, which is plain; the text of a
    heading or list item is stripped; the language of a code block is the
    fixed ["text"]. *)
Definition block_shape (b : block) : Prop :=
  match b with
  | paragraph r => r <> []
  | code r language => (exists c, r = [plain c]) /\ language = str "text"
  | heading_1 r | heading_2 r | heading_3 r
  | bulleted_list_item r | numbered_list_item r =>
      exists c, r = [plain c] /\ stripped_str c
  end.

(** The blocks that a request appends: none for a page creation. *)
Definition appended_blocks (r : notion_request) : list block :=
  match r with
  | blocks_children_append _ children => children
  | pages_create _ _ _ => []
  end.

(** [r] appends between 1 and 100 blocks to the block [target]. *)
Definition appends_to (target : pystr) (r : notion_request) : Prop :=
  exists children,
    r = blocks_children_append target children
    /\ 1 <= length children <= 100.


(** A line that [extract_section] keeps inside the section: not blank and
    not a repeat of the named heading. *)
Definition section_line (section_name line : pystr) : bool :=
  negb (is_blank line)
  && negb (match_section_heading section_name (strip line)).

(** * Properties *)

(** ** Strings *)

Section StringFacts.

Lemma drop_while_length p s : length (drop_while p s) <= length s.
Proof.
  induction s as [|c s IH]; simpl; [lia|].
  destruct (p c); simpl; lia.
Qed.

Lemma strip_length s : length (strip s) <= length s.
Proof.
  unfold strip, rstrip, lstrip.
  rewrite length_rev.
  etransitivity; [apply drop_while_length|].
  rewrite length_rev. apply drop_while_length.
Qed.

Lemma drop_while_head p s c s' : drop_while p s = c :: s' -> p c = false.
Proof.
  induction s as [|x s IH]; simpl; [discriminate|].
  destruct (p x) eqn:E; [exact IH|].
  intros H; inversion H; subst; exact E.
Qed.

(** [rev s] with its leading [p]-characters dropped is a prefix of [s]
    reversed: so [rstrip] cuts a suffix of whitespace. *)
Lemma drop_while_suffix p s :
  exists t, s = t ++ drop_while p s /\ forallb p t = true.
Proof.
  induction s as [|c s [t [E F]]]; simpl.
  - exists []. split; reflexivity.
  - destruct (p c) eqn:Pc.
    + exists (c :: t). simpl. rewrite Pc, F. split; [f_equal; exact E|reflexivity].
    + exists []. split; reflexivity.
Qed.

Lemma rstrip_split s :
  exists t, s = rstrip s ++ t /\ forallb is_space t = true.
Proof.
  unfold rstrip.
  destruct (drop_while_suffix is_space (rev s)) as [t [E F]].
  exists (rev t). split.
  - rewrite <- rev_app_distr, <- E, rev_involutive. reflexivity.
  - rewrite forallb_forall in *. intros x Hx. apply F.
    apply in_rev. exact Hx.
Qed.

Lemma lstrip_split s :
  exists t, s = t ++ lstrip s /\ forallb is_space t = true.
Proof. apply drop_while_suffix. Qed.

(** A stripped string does not begin with whitespace. *)
Lemma rstrip_head s c s' :
  rstrip s = c :: s' -> exists s'', s = c :: s''.
Proof.
  destruct (rstrip_split s) as [t [E _]].
  intros H. rewrite H in E. exists (s' ++ t). exact E.
Qed.

Lemma strip_head s c s' : strip s = c :: s' -> is_space c = false.
Proof.
  unfold strip. intros H.
  destruct (rstrip_head _ _ _ H) as [s'' E].
  exact (drop_while_head _ _ _ _ E).
Qed.

Lemma drop_while_app_last p l c :
  p c = false -> drop_while p (l ++ [c]) = drop_while p l ++ [c].
Proof.
  intros H. induction l as [|x l IH]; cbn [app drop_while].
  - rewrite H. reflexivity.
  - destruct (p x); [exact IH|reflexivity].
Qed.

(** Stripping keeps a first character that is not whitespace. *)
Lemma strip_cons c s : is_space c = false -> strip (c :: s) = c :: rstrip s.
Proof.
  intros H. unfold strip, lstrip. cbn [drop_while]. rewrite H.
  unfold rstrip. cbn [rev].
  rewrite (drop_while_app_last _ _ _ H), rev_app_distr. reflexivity.
Qed.

(** *** Whitespace-delimited words *)

Lemma split_ws_app_space cur a c b :
  is_space c = true ->
  split_ws cur (a ++ c :: b) = split_ws cur a ++ split_ws [] b.
Proof.
  intros Hc. revert cur.
  induction a as [|x a IH]; intros cur; simpl.
  - rewrite Hc. destruct cur; reflexivity.
  - destruct (is_space x).
    + destruct cur; simpl; rewrite IH; reflexivity.
    + apply IH.
Qed.

Lemma words_app_space a c b :
  is_space c = true -> words (a ++ c :: b) = words a ++ words b.
Proof. apply split_ws_app_space. Qed.

Lemma words_all_space t : forallb is_space t = true -> words t = [].
Proof.
  unfold words. induction t as [|c t IH]; simpl; [reflexivity|].
  intros H. apply andb_prop in H. destruct H as [Hc Ht].
  rewrite Hc. exact (IH Ht).
Qed.

Lemma words_app_blank a t :
  forallb is_space t = true -> words (a ++ t) = words a.
Proof.
  intros H. destruct t as [|c t].
  - rewrite app_nil_r. reflexivity.
  - simpl in H. apply andb_prop in H. destruct H as [Hc Ht].
    rewrite (words_app_space _ _ _ Hc), (words_all_space _ Ht).
    apply app_nil_r.
Qed.

Lemma words_blank_app t b :
  forallb is_space t = true -> words (t ++ b) = words b.
Proof.
  unfold words. induction t as [|c t IH]; simpl; [reflexivity|].
  intros H. apply andb_prop in H. destruct H as [Hc Ht].
  rewrite Hc. exact (IH Ht).
Qed.

Lemma words_strip s : words (strip s) = words s.
Proof.
  unfold strip.
  destruct (rstrip_split (lstrip s)) as [t [E F]].
  destruct (lstrip_split s) as [u [E' F']].
  rewrite E' at 2. rewrite (words_blank_app _ _ F').
  rewrite E at 2. rewrite (words_app_blank _ _ F). reflexivity.
Qed.

Lemma words_join_cons c cs :
  words (join (str " ") (c :: cs)) = words c ++ words (join (str " ") cs).
Proof.
  destruct cs as [|d cs].
  - simpl. rewrite app_nil_r. reflexivity.
  - change (join (str " ") (c :: d :: cs))
      with (c ++ " " :: join (str " ") (d :: cs)).
    apply words_app_space. reflexivity.
Qed.

(** *** Slices and [rfind] *)

Lemma slice_bound_pos n i :
  (1 <= i)%Z -> slice_bound n i = Nat.min n (Z.to_nat i).
Proof.
  intros H. unfold slice_bound.
  destruct (i <? 0)%Z eqn:E; [apply Z.ltb_lt in E; lia|reflexivity].
Qed.

Lemma rfind_aux_spec c s : forall i found,
  (rfind_aux c s i found = found /\ Forall (fun x => x <> c) s)
  \/ (exists k, rfind_aux c s i found = (i + Z.of_nat k)%Z
                /\ nth_error s k = Some c
                /\ Forall (fun x => x <> c) (skipn (S k) s)).
Proof.
  induction s as [|x s IH]; intros i found; simpl.
  - left. split; [reflexivity|constructor].
  - destruct (IH (i + 1)%Z (if Ascii.eqb x c then i else found))
      as [[E F]|[k [E [N F]]]].
    + destruct (Ascii.eqb_spec x c) as [->|Hx].
      * right. exists 0. simpl. repeat split; [lia|exact F].
      * left. split; [exact E|constructor; assumption].
    + right. exists (S k). repeat split; [lia|exact N|exact F].
Qed.

Lemma slice_bound_nat n e : slice_bound n (Z.of_nat e) = Nat.min n e.
Proof.
  unfold slice_bound.
  destruct (Z.of_nat e <? 0)%Z eqn:E; [apply Z.ltb_lt in E; lia|].
  rewrite Nat2Z.id. reflexivity.
Qed.

(** *** Pieces between spaces *)

Lemma split_first s : exists ws, split " " s = first_run s :: ws.
Proof.
  induction s as [|c s [ws E]]; simpl.
  - exists []. reflexivity.
  - unfold first_run. simpl. destruct (Ascii.eqb c " "); simpl.
    + eexists. reflexivity.
    + rewrite E. eexists. reflexivity.
Qed.

Lemma tokens_within_cons M c s :
  tokens_within M (c :: s) <->
  if Ascii.eqb c " " then tokens_within M s
  else (len (c :: first_run s) <= M)%Z /\ tokens_within M s.
Proof.
  unfold tokens_within. simpl.
  destruct (split_first s) as [ws E]. rewrite E.
  destruct (Ascii.eqb c " ").
  - split; intros H.
    + inversion H; assumption.
    + constructor; [|exact H].
      inversion H; subst. unfold len in *. simpl. lia.
  - split; intros H.
    + inversion H; subst. split; [assumption|].
      constructor; [|assumption]. unfold len in *. simpl in *. lia.
    + destruct H as [H1 H2]. inversion H2; subst.
      constructor; assumption.
Qed.

Lemma tokens_within_tail M c s : tokens_within M (c :: s) -> tokens_within M s.
Proof.
  intros H. apply tokens_within_cons in H.
  destruct (Ascii.eqb c " "); [exact H|exact (proj2 H)].
Qed.

Lemma tokens_within_skipn M k s : tokens_within M s -> tokens_within M (skipn k s).
Proof.
  revert s. induction k as [|k IH]; intros s H; [exact H|].
  destruct s as [|c s]; [exact H|].
  simpl. apply IH. exact (tokens_within_tail _ _ _ H).
Qed.

Lemma tokens_within_drop_while M p s :
  tokens_within M s -> tokens_within M (drop_while p s).
Proof.
  induction s as [|c s IH]; intros H; simpl; [exact H|].
  destruct (p c); [|exact H].
  apply IH. exact (tokens_within_tail _ _ _ H).
Qed.

Lemma first_run_app_length a b :
  length (first_run a) <= length (first_run (a ++ b)).
Proof.
  unfold first_run. induction a as [|c a IH]; simpl; [lia|].
  destruct (negb (Ascii.eqb c " ")); simpl; lia.
Qed.

Lemma tokens_within_prefix M a b :
  (0 <= M)%Z -> tokens_within M (a ++ b) -> tokens_within M a.
Proof.
  intros HM. induction a as [|c a IH]; intros H.
  - constructor; [exact HM|constructor].
  - simpl in H. apply tokens_within_cons in H. apply tokens_within_cons.
    destruct (Ascii.eqb c " "); [exact (IH H)|].
    destruct H as [H1 H2]. split; [|exact (IH H2)].
    pose proof (first_run_app_length a b). unfold len in *. simpl in *. lia.
Qed.

Lemma tokens_within_strip M s :
  (0 <= M)%Z -> tokens_within M s -> tokens_within M (strip s).
Proof.
  intros HM H. unfold strip.
  destruct (rstrip_split (lstrip s)) as [t [E _]].
  apply (tokens_within_prefix M _ t HM). rewrite <- E.
  apply tokens_within_drop_while. exact H.
Qed.

Lemma tokens_within_first_run M s :
  tokens_within M s -> (len (first_run s) <= M)%Z.
Proof.
  unfold tokens_within. destruct (split_first s) as [ws E]. rewrite E.
  intros H. inversion H; assumption.
Qed.

(** When the first [m] characters hold no space and the first run is no
    longer than [m], the character at index [m] is a space. *)
Lemma space_after_run m : forall s,
  Forall (fun x => x <> " ") (firstn m s) ->
  m < length s ->
  length (first_run s) <= m ->
  nth_error s m = Some " ".
Proof.
  unfold first_run.
  induction m as [|m IH]; intros [|c s] F L R; simpl in *; try lia.
  - destruct (Ascii.eqb_spec c " ") as [->|Hc]; [reflexivity|].
    simpl in R. lia.
  - inversion F as [|? ? Hc F']; subst.
    destruct (Ascii.eqb_spec c " ") as [->|_]; [congruence|].
    simpl in R. apply IH; [exact F'|lia|lia].
Qed.

Lemma words_cut_at_space s e :
  nth_error s e = Some " " ->
  words s = words (firstn e s) ++ words (skipn e s).
Proof.
  intros H.
  destruct (nth_error_split s e H) as [a [b [E L]]].
  subst e. rewrite E at 1.
  assert (Hf : firstn (length a) s = a).
  { rewrite E. rewrite firstn_app, Nat.sub_diag, firstn_all. simpl.
    apply app_nil_r. }
  assert (Hs : skipn (length a) s = " " :: b).
  { rewrite E. rewrite skipn_app, Nat.sub_diag, skipn_all. reflexivity. }
  rewrite Hf, Hs.
  rewrite (words_app_space a " " b eq_refl). reflexivity.
Qed.

(** *** Lines *)

Lemma split_no_sep sep l :
  Forall (fun c => c <> sep) l -> split sep l = [l].
Proof.
  induction l as [|c l IH]; intros F; [reflexivity|].
  inversion F as [|? ? Hc F']; subst. cbn [split].
  destruct (Ascii.eqb_spec c sep) as [->|_]; [congruence|].
  rewrite (IH F'). reflexivity.
Qed.

Lemma split_app_sep sep l rest :
  Forall (fun c => c <> sep) l ->
  split sep (l ++ sep :: rest) = l :: split sep rest.
Proof.
  induction l as [|c l IH]; intros F.
  - cbn [app split]. rewrite Ascii.eqb_refl. reflexivity.
  - inversion F as [|? ? Hc F']; subst. cbn [app split].
    destruct (Ascii.eqb_spec c sep) as [->|_]; [congruence|].
    rewrite (IH F'). reflexivity.
Qed.

(** Splitting at line breaks undoes joining with line breaks. *)
Lemma split_join sep ls :
  ls <> [] -> Forall (Forall (fun c => c <> sep)) ls ->
  split sep (join [sep] ls) = ls.
Proof.
  induction ls as [|l ls IH]; intros Hne F; [congruence|].
  inversion F as [|? ? Hl F']; subst.
  destruct ls as [|l' ls].
  - cbn [join]. apply split_no_sep. exact Hl.
  - change (join [sep] (l :: l' :: ls)) with (l ++ sep :: join [sep] (l' :: ls)).
    rewrite (split_app_sep _ _ _ Hl), IH; [reflexivity|discriminate|exact F'].
Qed.

End StringFacts.

(** ** The chunker *)

(** The fuel of [chunk_content] is exact for every chunk size: a round
    never lengthens the content, and a round that leaves its length
    unchanged leaves the content unchanged, so that the loop runs for
    ever.  [None] therefore stands for a loop that does not end. *)
Section ChunkerFuel.

Variable M : Z.

Lemma skipn_same_length (k : nat) (s : pystr) :
  length (skipn k s) = length s -> skipn k s = s.
Proof.
  rewrite length_skipn. intros H.
  destruct s as [|c s]; [apply skipn_nil|].
  cbn [length] in H. replace k with 0 by lia. reflexivity.
Qed.

Lemma strip_same_length s : length (strip s) = length s -> strip s = s.
Proof.
  unfold strip. intros H.
  destruct (lstrip_split s) as [t [Et _]].
  destruct (rstrip_split (lstrip s)) as [u [Eu _]].
  assert (L : length s = length t + (length (rstrip (lstrip s)) + length u)).
  { rewrite Et at 1. rewrite length_app. rewrite Eu at 1.
    rewrite length_app. reflexivity. }
  assert (t = []) by (destruct t; [reflexivity|simpl in L; lia]).
  assert (u = []) by (destruct u; [reflexivity|simpl in L; lia]).
  subst. rewrite app_nil_r in Eu. cbn [app] in Et. congruence.
Qed.

Lemma chunk_rest_length content :
  length (chunk_rest content M) <= length content.
Proof.
  unfold chunk_rest, slice_from.
  etransitivity; [apply strip_length|]. rewrite length_skipn. lia.
Qed.

Lemma chunk_rest_same_length content :
  length (chunk_rest content M) = length content ->
  chunk_rest content M = content.
Proof.
  unfold chunk_rest, slice_from. intros H.
  pose proof (strip_length (skipn (slice_bound (length content)
                                     (chunk_cut content M)) content)) as H1.
  assert (H2 : length (skipn (slice_bound (length content)
                                (chunk_cut content M)) content)
               = length content).
  { pose proof (length_skipn (slice_bound (length content)
                                (chunk_cut content M)) content). lia. }
  rewrite (skipn_same_length _ _ H2) in *.
  apply strip_same_length. exact H.
Qed.

Lemma chunk_loop_stuck content :
  (0 <? len content)%Z = true -> (len content <=? M)%Z = false ->
  chunk_rest content M = content ->
  forall fuel, chunk_loop fuel content M = None.
Proof.
  intros H0 H1 E fuel. induction fuel as [|fuel IH]; [reflexivity|].
  cbn [chunk_loop]. rewrite H0, H1, E, IH. reflexivity.
Qed.

Lemma chunk_loop_diverges fuel : forall content,
  length content < fuel ->
  chunk_loop fuel content M = None ->
  forall fuel', chunk_loop fuel' content M = None.
Proof.
  induction fuel as [|fuel IH]; intros content L H fuel'; [lia|].
  cbn [chunk_loop] in H.
  destruct (0 <? len content)%Z eqn:H0; [|discriminate].
  destruct (len content <=? M)%Z eqn:H1; [discriminate|].
  destruct (chunk_loop fuel (chunk_rest content M) M) eqn:Hr; [discriminate|].
  pose proof (chunk_rest_length content) as Hl.
  destruct (Nat.eq_dec (length (chunk_rest content M)) (length content))
    as [Heq|Hne].
  - apply chunk_loop_stuck; [exact H0|exact H1|].
    apply chunk_rest_same_length. exact Heq.
  - destruct fuel' as [|fuel']; [reflexivity|].
    cbn [chunk_loop]. rewrite H0, H1.
    rewrite (IH (chunk_rest content M)); [reflexivity|lia|exact Hr].
Qed.

End ChunkerFuel.

Section Chunker.

Variable M : Z.
Hypothesis M_pos : (1 <= M)%Z.

Lemma chunk_cut_range content : (1 <= chunk_cut content M <= M)%Z.
Proof.
  unfold chunk_cut, rfind.
  destruct (rfind_aux_spec " " (slice_to content M) 0 (-1))
    as [[E _]|[k [E [N _]]]]; rewrite E.
  - simpl. lia.
  - assert (Hk : k < length (slice_to content M)).
    { apply nth_error_Some. rewrite N. discriminate. }
    unfold slice_to in Hk. rewrite length_firstn in Hk.
    rewrite (slice_bound_pos _ _ M_pos) in Hk.
    destruct (0 <? 0 + Z.of_nat k)%Z eqn:P; [apply Z.ltb_lt in P|]; lia.
Qed.

Lemma chunk_emit_within content : (len (chunk_emit content M) <= M)%Z.
Proof.
  unfold chunk_emit, len.
  pose proof (strip_length (slice_to content (chunk_cut content M))) as H.
  pose proof (chunk_cut_range content) as R.
  assert (L : length (slice_to content (chunk_cut content M))
              <= Z.to_nat (chunk_cut content M)).
  { unfold slice_to. rewrite length_firstn, slice_bound_pos by lia. lia. }
  lia.
Qed.

Lemma chunk_rest_shorter content :
  content <> [] -> length (chunk_rest content M) < length content.
Proof.
  intros Hne. unfold chunk_rest.
  pose proof (strip_length (slice_from content (chunk_cut content M))) as H.
  pose proof (chunk_cut_range content) as R.
  assert (L : length (slice_from content (chunk_cut content M))
              < length content).
  { assert (0 < length content)
      by (destruct content; [congruence|simpl; lia]).
    unfold slice_from. rewrite length_skipn, slice_bound_pos by lia. lia. }
  lia.
Qed.

Lemma chunk_loop_total fuel : forall content,
  length content < fuel -> exists chunks, chunk_loop fuel content M = Some chunks.
Proof.
  induction fuel as [|fuel IH]; intros content L; [lia|].
  simpl. destruct (0 <? len content)%Z eqn:E0; [|eexists; reflexivity].
  destruct (len content <=? M)%Z; [eexists; reflexivity|].
  assert (Hne : content <> []).
  { intros ->. discriminate. }
  pose proof (chunk_rest_shorter content Hne) as Hs.
  destruct (IH (chunk_rest content M)) as [chunks Hc]; [lia|].
  rewrite Hc. eexists. reflexivity.
Qed.

(** Fuel beyond what the loop needs does not change its result. *)
Lemma chunk_loop_more_fuel fuel : forall fuel' content chunks,
  chunk_loop fuel content M = Some chunks -> fuel <= fuel' ->
  chunk_loop fuel' content M = Some chunks.
Proof.
  induction fuel as [|fuel IH]; intros fuel' content chunks H L;
    [discriminate|].
  destruct fuel' as [|fuel']; [lia|].
  simpl in *. destruct (0 <? len content)%Z; [|exact H].
  destruct (len content <=? M)%Z; [exact H|].
  destruct (chunk_loop fuel (chunk_rest content M) M) as [cs|] eqn:E;
    [|discriminate].
  rewrite (IH fuel' _ cs E); [exact H|lia].
Qed.

Lemma chunk_loop_within fuel : forall content chunks,
  chunk_loop fuel content M = Some chunks -> chunks_within M chunks.
Proof.
  induction fuel as [|fuel IH]; intros content chunks H; [discriminate|].
  simpl in H. destruct (0 <? len content)%Z.
  - destruct (len content <=? M)%Z eqn:E.
    + inversion H; subst. constructor; [|constructor].
      apply Z.leb_le. exact E.
    + destruct (chunk_loop fuel (chunk_rest content M) M) as [cs|] eqn:Ec;
        [|discriminate].
      inversion H; subst. constructor.
      * apply chunk_emit_within.
      * exact (IH _ _ Ec).
  - inversion H; subst. constructor.
Qed.

(** Under the two conditions on [content], the cut falls on a space. *)
Lemma chunk_cut_at_space content :
  (M < len content)%Z ->
  startswith (str " ") content = false ->
  tokens_within M content ->
  exists e, chunk_cut content M = Z.of_nat e
            /\ nth_error content e = Some " ".
Proof.
  intros L Hs T. unfold chunk_cut, rfind.
  assert (Hm : slice_to content M = firstn (Z.to_nat M) content).
  { unfold slice_to. rewrite slice_bound_pos by exact M_pos.
    unfold len in L. f_equal. lia. }
  rewrite Hm.
  destruct (rfind_aux_spec " " (firstn (Z.to_nat M) content) 0 (-1))
    as [[E F]|[k [E [N _]]]]; rewrite E.
  - exists (Z.to_nat M). split; [simpl; lia|].
    apply space_after_run; [exact F|unfold len in L; lia|].
    pose proof (tokens_within_first_run _ _ T). unfold len in *. lia.
  - assert (Hk : nth_error content k = Some " ").
    { assert (K : k < Z.to_nat M).
      { assert (k < length (firstn (Z.to_nat M) content))
          by (apply nth_error_Some; rewrite N; discriminate).
        rewrite length_firstn in *. lia. }
      rewrite nth_error_firstn in N.
      destruct (k <? Z.to_nat M)%nat eqn:B; [exact N|].
      apply Nat.ltb_ge in B. lia. }
    destruct k as [|k].
    + destruct content as [|c content]; [discriminate|].
      simpl in Hk. inversion Hk; subst. discriminate.
    + exists (S k). split; [|exact Hk].
      destruct (0 <? 0 + Z.of_nat (S k))%Z eqn:P; [lia|].
      apply Z.ltb_ge in P. lia.
Qed.

Lemma chunk_step_words content :
  (M < len content)%Z ->
  startswith (str " ") content = false ->
  tokens_within M content ->
  words content
  = words (chunk_emit content M) ++ words (chunk_rest content M).
Proof.
  intros L Hs T.
  destruct (chunk_cut_at_space content L Hs T) as [e [E N]].
  unfold chunk_emit, chunk_rest, slice_to, slice_from.
  rewrite E, slice_bound_nat, !words_strip.
  assert (He : e < length content)
    by (apply nth_error_Some; rewrite N; discriminate).
  replace (Nat.min (length content) e) with e by lia.
  apply words_cut_at_space. exact N.
Qed.

Lemma chunk_rest_invariant content :
  tokens_within M content ->
  startswith (str " ") (chunk_rest content M) = false
  /\ tokens_within M (chunk_rest content M).
Proof.
  intros T. split.
  - unfold chunk_rest.
    destruct (strip _) as [|c s] eqn:E; [reflexivity|].
    apply strip_head in E.
    change (Ascii.eqb " " c && true = false).
    destruct (Ascii.eqb_spec " " c) as [<-|_]; [discriminate|reflexivity].
  - unfold chunk_rest. apply tokens_within_strip; [lia|].
    unfold slice_from. apply tokens_within_skipn. exact T.
Qed.

Lemma chunk_loop_words fuel : forall content chunks,
  startswith (str " ") content = false ->
  tokens_within M content ->
  chunk_loop fuel content M = Some chunks ->
  words (join (str " ") chunks) = words content.
Proof.
  induction fuel as [|fuel IH]; intros content chunks Hs T H; [discriminate|].
  simpl in H. destruct (0 <? len content)%Z eqn:E0.
  - destruct (len content <=? M)%Z eqn:E.
    + inversion H; subst. reflexivity.
    + destruct (chunk_loop fuel (chunk_rest content M) M) as [cs|] eqn:Ec;
        [|discriminate].
      inversion H; subst. apply Z.leb_gt in E.
      destruct (chunk_rest_invariant content T) as [Hs' T'].
      rewrite words_join_cons, (IH _ _ Hs' T' Ec).
      symmetry. apply chunk_step_words; assumption.
  - inversion H; subst.
    destruct content; [reflexivity|discriminate].
Qed.

End Chunker.

(** C7: for a chunk size of at least 1 the chunker ends: the loop returns
    within one round per character (and more fuel changes nothing), because
    every round that cuts leaves strictly less content than it found. *)
Theorem chunk_content_terminates (S : pystr) (M : Z) :
  (1 <= M)%Z ->
  (exists chunks,
      chunk_content S M = Some chunks
      /\ forall fuel, length S < fuel -> chunk_loop fuel S M = Some chunks)
  /\ (forall content,
         (M < len content)%Z ->
         (len (chunk_rest content M) < len content)%Z).
Proof.
  intros HM. split.
  - destruct (chunk_loop_total M HM (Datatypes.S (length S)) S) as [chunks H];
      [lia|].
    exists chunks. split; [exact H|].
    intros fuel L. apply (chunk_loop_more_fuel M _ _ _ _ H). lia.
  - intros content L. unfold len in *.
    assert (content <> []) by (intros ->; simpl in L; lia).
    pose proof (chunk_rest_shorter M HM content H). lia.
Qed.

Lemma chunk_content_terminates_witness :
  (exists chunks,
      chunk_content (str "hello world foo bar") 7 = Some chunks
      /\ forall fuel, 19 < fuel ->
           chunk_loop fuel (str "hello world foo bar") 7 = Some chunks)
  /\ (forall content,
         (7 < len content)%Z ->
         (len (chunk_rest content 7) < len content)%Z).
Proof.
  apply (chunk_content_terminates (str "hello world foo bar") 7). lia.
Defined.

(** C3, as the code has it: for a chunk size of at least 1 the chunker
    returns, no chunk (final or not) is longer than the chunk size, and when
    the string does not begin with a space and none of its pieces between
    spaces is longer than the chunk size, the chunks joined by single
    spaces have the words of the string, in order. *)
Theorem chunk_content_words (S : pystr) (M : Z) :
  (1 <= M)%Z ->
  exists chunks,
    chunk_content S M = Some chunks
    /\ chunks_within M chunks
    /\ (startswith (str " ") S = false ->
        tokens_within M S ->
        words (join (str " ") chunks) = words S).
Proof.
  intros HM.
  destruct (chunk_loop_total M HM (Datatypes.S (length S)) S) as [chunks H];
    [lia|].
  exists chunks. split; [exact H|]. split.
  - exact (chunk_loop_within M HM _ _ _ H).
  - intros Hs T. exact (chunk_loop_words M HM _ _ _ Hs T H).
Qed.

Lemma chunk_content_words_witness :
  exists chunks,
    chunk_content (str "hello world foo bar") 7 = Some chunks
    /\ chunks_within 7 chunks
    /\ words (join (str " ") chunks) = words (str "hello world foo bar").
Proof.
  destruct (chunk_content_words (str "hello world foo bar") 7 ltac:(lia))
    as [chunks [H [B W]]].
  exists chunks. split; [exact H|]. split; [exact B|].
  apply W; [reflexivity|].
  unfold tokens_within. vm_compute split.
  repeat constructor; discriminate.
Defined.

(** C3, as stated, fails where a word is longer than the chunk size: the
    word is cut, and the joined chunks have other words than the string. *)
Lemma chunk_content_cuts_long_word : ~ chunker_keeps_words (str "abcdef") 3.
Proof.
  intros [chunks [H [W _]]].
  vm_compute in H. inversion H; subst.
  vm_compute in W. discriminate.
Qed.

(** With a chunk size of 0 the loop never ends on a text that is not
    blank: no amount of fuel gives a result. *)
Example chunk_content_size_zero :
  forall fuel, chunk_loop fuel (str "a") 0 = None.
Proof.
  apply (chunk_loop_diverges 0 2); [simpl; lia|reflexivity].
Qed.

(** A leading space has the same effect on a word that would fit. *)
Example chunk_content_leading_space :
  chunk_content (str " abcdef") 6 = Some [str "abcde"; str "f"].
Proof. reflexivity. Qed.

(** ** The inline parser *)

Section Inline.

Lemma startswith_cons a p c s :
  startswith (a :: p) (c :: s) = Ascii.eqb a c && startswith p s.
Proof. reflexivity. Qed.

Lemma startswith_app p : forall s,
  startswith p s = true -> exists s', s = p ++ s'.
Proof.
  induction p as [|a p IH]; intros s H.
  - exists s. reflexivity.
  - destruct s as [|c s]; [discriminate|].
    rewrite startswith_cons in H. apply andb_prop in H. destruct H as [Ha Hp].
    apply Ascii.eqb_eq in Ha. subst.
    destruct (IH s Hp) as [s' ->]. exists s'. reflexivity.
Qed.

Lemma is_marker_false c :
  is_marker c = false ->
  Ascii.eqb "*" c = false /\ Ascii.eqb "_" c = false /\ Ascii.eqb "~" c = false.
Proof.
  unfold is_marker. intros H.
  apply orb_false_elim in H. destruct H as [H H3].
  apply orb_false_elim in H. destruct H as [H1 H2].
  repeat split; assumption.
Qed.

(** No alternative of the pattern can begin at a character that is not a
    marker. *)
Lemma match_here_no_marker c s : is_marker c = false -> match_here (c :: s) = None.
Proof.
  intros H. destruct (is_marker_false c H) as [H1 [H2 H3]].
  unfold match_here, delimited, str.
  cbn [list_ascii_of_string]. rewrite !startswith_cons, H1, H2, H3.
  reflexivity.
Qed.

Lemma finditer_from_no_marker fuel : forall pos s,
  no_marker s = true -> finditer_from fuel pos s = [].
Proof.
  induction fuel as [|fuel IH]; intros pos s H; [reflexivity|].
  destruct s as [|c s]; [reflexivity|].
  cbn [no_marker forallb] in H. apply andb_prop in H. destruct H as [Hc Hs].
  apply negb_true_iff in Hc.
  cbn [finditer_from]. rewrite (match_here_no_marker c s Hc).
  apply IH. exact Hs.
Qed.

Lemma finditer_from_skip pre : forall fuel pos s,
  no_marker pre = true ->
  finditer_from (length pre + fuel) pos (pre ++ s)
  = finditer_from fuel (pos + length pre) s.
Proof.
  induction pre as [|c pre IH]; intros fuel pos s H.
  - simpl. rewrite Nat.add_0_r. reflexivity.
  - cbn [no_marker forallb] in H. apply andb_prop in H. destruct H as [Hc Hs].
    apply negb_true_iff in Hc.
    cbn [length Nat.add app finditer_from].
    rewrite (match_here_no_marker c (pre ++ s) Hc).
    rewrite (IH fuel (pos + 1) s Hs). f_equal. lia.
Qed.

(** The lazy [(.+?)] stops at the first closing [**] past its first
    character: when none begins inside [inner], it takes the whole of it. *)
Lemma dot_plus_lazy_bold inner : forall post,
  inner <> [] ->
  forallb (fun c => negb (Ascii.eqb c newline)) inner = true ->
  occurs (str "**") (tl inner ++ str "*") = false ->
  dot_plus_lazy (str "**") (inner ++ str "**" ++ post) = Some inner.
Proof.
  induction inner as [|c inner IH]; intros post Hne Hnl Ho; [congruence|].
  cbn [forallb] in Hnl. apply andb_prop in Hnl. destruct Hnl as [Hc Hi].
  apply negb_true_iff in Hc.
  cbn [app dot_plus_lazy]. rewrite Hc.
  destruct inner as [|d inner].
  - reflexivity.
  - cbn [tl app occurs] in Ho. apply orb_false_elim in Ho.
    destruct Ho as [Hs Ho].
    assert (Hs' : startswith (str "**") (d :: inner ++ str "**" ++ post)
                  = false).
    { assert (E : startswith (str "**") (d :: inner ++ str "**" ++ post)
                  = startswith (str "**") (d :: inner ++ str "*")).
      { unfold str. cbn [list_ascii_of_string].
        rewrite !startswith_cons. f_equal.
        destruct inner; reflexivity. }
      rewrite E. exact Hs. }
    change ((d :: inner) ++ str "**" ++ post)
      with (d :: inner ++ str "**" ++ post).
    rewrite Hs'.
    change (d :: inner ++ str "**" ++ post)
      with ((d :: inner) ++ str "**" ++ post).
    rewrite (IH post); [reflexivity|discriminate|exact Hi|exact Ho].
Qed.

Lemma bold_text_parts inner :
  bold_text inner = true ->
  inner <> []
  /\ forallb (fun c => negb (Ascii.eqb c newline)) inner = true
  /\ occurs (str "**") (tl inner ++ str "*") = false.
Proof.
  unfold bold_text. intros H.
  apply andb_prop in H. destruct H as [H Ho].
  apply andb_prop in H. destruct H as [He Hn].
  apply negb_true_iff in Ho.
  split; [destruct inner; [discriminate|discriminate]|].
  split; assumption.
Qed.

Lemma match_here_bold inner post :
  bold_text inner = true ->
  match_here (str "**" ++ inner ++ str "**" ++ post)
  = Some (1, inner, length inner + 4).
Proof.
  intros H. destruct (bold_text_parts inner H) as [Hne [Hn Ho]].
  unfold match_here, delimited.
  change (startswith (str "**") (str "**" ++ inner ++ str "**" ++ post))
    with true.
  change (skipn (length (str "**")) (str "**" ++ inner ++ str "**" ++ post))
    with (inner ++ str "**" ++ post).
  cbv iota. rewrite (dot_plus_lazy_bold inner post Hne Hn Ho). reflexivity.
Qed.

(** Where the pattern matches at none of its positions, a prefix is
    passed over. *)
Lemma finditer_from_pass pre : forall fuel pos s,
  no_match_before (length pre) (pre ++ s) = true ->
  finditer_from (length pre + fuel) pos (pre ++ s)
  = finditer_from fuel (pos + length pre) s.
Proof.
  induction pre as [|c pre IH]; intros fuel pos s H.
  - simpl. rewrite Nat.add_0_r. reflexivity.
  - cbn [length app no_match_before] in H.
    apply andb_prop in H. destruct H as [Hc Hs].
    cbn [length Nat.add app finditer_from].
    destruct (match_here (c :: pre ++ s)); [discriminate|].
    rewrite (IH fuel (pos + 1) s Hs). f_equal. lia.
Qed.

(** Whether there is a match does not depend on the position counted
    from. *)
Lemma finditer_from_nil_shift fuel : forall pos pos' s,
  finditer_from fuel pos s = [] -> finditer_from fuel pos' s = [].
Proof.
  induction fuel as [|fuel IH]; intros pos pos' s H; [reflexivity|].
  destruct s as [|c s]; [reflexivity|].
  cbn [finditer_from] in *.
  destruct (match_here (c :: s)) as [[[g t] n]|]; [discriminate|].
  exact (IH _ _ _ H).
Qed.

Lemma skipn_bold inner post :
  skipn (length inner + 4) (str "**" ++ inner ++ str "**" ++ post) = post.
Proof.
  replace (length inner + 4) with (2 + (length inner + 2)) by lia.
  change (skipn (2 + (length inner + 2)) (str "**" ++ inner ++ str "**" ++ post))
    with (skipn (length inner + 2) (inner ++ str "**" ++ post)).
  rewrite skipn_app.
  replace (length inner + 2 - length inner) with 2 by lia.
  rewrite skipn_all2 by lia. reflexivity.
Qed.

Lemma match_here_length s g t n : match_here s = Some (g, t, n) -> 2 <= n.
Proof.
  unfold match_here. intros H.
  repeat match type of H with
    | match ?d with Some _ => _ | None => _ end = _ => destruct d
    end;
    inversion H; lia.
Qed.

(** The fuel of [finditer] is enough: any larger amount finds the same
    matches. *)
Lemma finditer_from_fuel fuel : forall fuel' pos s,
  length s <= fuel -> length s <= fuel' ->
  finditer_from fuel pos s = finditer_from fuel' pos s.
Proof.
  induction fuel as [|fuel IH]; intros fuel' pos s L L'.
  - destruct s; [|simpl in L; lia]. destruct fuel'; reflexivity.
  - destruct s as [|c s]; [destruct fuel'; reflexivity|].
    destruct fuel' as [|fuel']; [simpl in L'; lia|].
    cbn [finditer_from]. cbn [length] in L, L'.
    destruct (match_here (c :: s)) as [[[g t] n]|] eqn:E.
    + pose proof (match_here_length _ _ _ _ E) as Hn.
      assert (Hk : length (skipn n (c :: s)) <= length s).
      { rewrite length_skipn. cbn [length]. lia. }
      f_equal. apply IH; lia.
    + apply IH; lia.
Qed.

Lemma finditer_from_match fuel pos c s g t n :
  match_here (c :: s) = Some (g, t, n) ->
  finditer_from (S fuel) pos (c :: s)
  = mk_match pos (pos + n) g t :: finditer_from fuel (pos + n) (skipn n (c :: s)).
Proof. intros H. cbn [finditer_from]. rewrite H. reflexivity. Qed.

Lemma finditer_from_none fuel pos s :
  finditer s = [] -> length s <= fuel -> finditer_from fuel pos s = [].
Proof.
  intros H L. unfold finditer in H.
  rewrite (finditer_from_fuel fuel (length s) pos s L (Nat.le_refl _)).
  exact (finditer_from_nil_shift _ 0 pos s H).
Qed.

(** The only match in [pre ** inner ** post]. *)
Lemma finditer_bold pre inner post :
  no_match_before (length pre)
    (pre ++ str "**" ++ inner ++ str "**" ++ post) = true ->
  bold_text inner = true ->
  finditer post = [] ->
  finditer (pre ++ str "**" ++ inner ++ str "**" ++ post)
  = [mk_match (length pre) (length pre + (length inner + 4)) 1 inner].
Proof.
  intros Hpre Hin Hpost. unfold finditer.
  rewrite length_app.
  rewrite (finditer_from_pass pre _ 0 _ Hpre).
  change (length (str "**" ++ inner ++ str "**" ++ post))
    with (S (S (length (inner ++ str "**" ++ post)))).
  pose proof (match_here_bold inner post Hin) as Hm.
  pose proof (skipn_bold inner post) as Hk.
  change (str "**" ++ inner ++ str "**" ++ post)
    with ("*" :: "*" :: inner ++ str "**" ++ post) in *.
  rewrite (finditer_from_match _ _ _ _ _ _ _ Hm), Hk.
  rewrite (finditer_from_none _ _ post Hpost); [reflexivity|].
  rewrite !length_app. lia.
Qed.

Lemma inline_step_bold text rich_text last_end a b t :
  t <> [] ->
  inline_step text (rich_text, last_end) (mk_match a b 1 t)
  = ((if (last_end <? a)%nat
      then rich_text ++ [plain (slice text last_end a)]
      else rich_text) ++ [styled bold t], b).
Proof. intros H. destruct t; [congruence|reflexivity]. Qed.

Lemma slice_prefix pre s : slice (pre ++ s) 0 (length pre) = pre.
Proof.
  unfold slice. rewrite Nat.sub_0_r. cbn [skipn].
  rewrite firstn_app, Nat.sub_diag, firstn_all. apply app_nil_r.
Qed.

Lemma skipn_past_bold pre inner post :
  skipn (length pre + (length inner + 4))
    (pre ++ str "**" ++ inner ++ str "**" ++ post) = post.
Proof.
  rewrite skipn_app, skipn_all2 by lia.
  replace (length pre + (length inner + 4) - length pre)
    with (length inner + 4) by lia.
  cbn [app]. apply skipn_bold.
Qed.

Lemma parse_inline_markdown_nonempty text :
  is_empty (parse_inline_markdown text) = false.
Proof.
  unfold parse_inline_markdown.
  destruct (fold_left _ _ _) as [rich_text last_end].
  destruct (if (last_end <? length text)%nat then _ else _); reflexivity.
Qed.

End Inline.

(** C8: when the pattern matches nowhere in the text, the result is exactly
    one plain run holding the whole text; this includes the empty text,
    whose single run is empty. *)
Theorem parse_inline_markdown_plain (text : pystr) :
  finditer text = [] -> parse_inline_markdown text = [plain text].
Proof.
  intros H. unfold parse_inline_markdown. rewrite H. cbn [fold_left].
  destruct text; reflexivity.
Qed.

Lemma parse_inline_markdown_plain_witness :
  parse_inline_markdown (str "hello") = [plain (str "hello")]
  /\ parse_inline_markdown [] = [plain []].
Proof.
  split.
  - apply (parse_inline_markdown_plain (str "hello")). reflexivity.
  - apply (parse_inline_markdown_plain []). reflexivity.
Defined.

(** A text without marker characters has no match, hence one plain run. *)
Lemma parse_inline_markdown_no_marker (text : pystr) :
  no_marker text = true -> parse_inline_markdown text = [plain text].
Proof.
  intros H. unfold parse_inline_markdown, finditer.
  rewrite (finditer_from_no_marker _ _ _ H). cbn [fold_left].
  destruct text; reflexivity.
Qed.

(** C6, as the code has it: in a line [pre ** inner ** post] where the
    bold span is the only match (the pattern matches at no position of
    [pre]; [inner] is not empty, holds no line break, and no [**] begins in
    it after its first character, the first star of the closing pair
    counted in; the pattern matches nowhere in [post]), the result is one
    bold run holding [inner], after a plain run for [pre] and before a
    plain run for [post] (each left out when empty). *)
Theorem parse_inline_markdown_bold (pre inner post : pystr) :
  no_match_before (length pre)
    (pre ++ str "**" ++ inner ++ str "**" ++ post) = true ->
  bold_text inner = true ->
  finditer post = [] ->
  parse_inline_markdown (pre ++ str "**" ++ inner ++ str "**" ++ post)
  = plain_run pre ++ [styled bold inner] ++ plain_run post.
Proof.
  intros Hpre Hin Hpost. unfold parse_inline_markdown.
  rewrite (finditer_bold pre inner post Hpre Hin Hpost).
  destruct (bold_text_parts inner Hin) as [Hne _].
  cbn [fold_left]. rewrite (inline_step_bold _ _ _ _ _ _ Hne).
  rewrite slice_prefix, skipn_past_bold.
  assert (Hl : length (pre ++ str "**" ++ inner ++ str "**" ++ post)
               = length pre + (length inner + 4) + length post).
  { rewrite !length_app. simpl. lia. }
  rewrite Hl. unfold plain_run.
  destruct pre as [|c pre]; destruct post as [|d post]; cbn [is_empty length];
    repeat match goal with
      | |- context [(?a <? ?b)%nat] => destruct (Nat.ltb_spec a b); try lia
      end; reflexivity.
Qed.

Lemma parse_inline_markdown_bold_witness :
  parse_inline_markdown (str "a **b** c")
  = [plain (str "a "); styled bold (str "b"); plain (str " c")]
  /\ parse_inline_markdown (str "snake_case **a*b** ~x")
     = [plain (str "snake_case "); styled bold (str "a*b"); plain (str " ~x")].
Proof.
  split.
  - apply (parse_inline_markdown_bold (str "a ") (str "b") (str " c"));
      reflexivity.
  - apply (parse_inline_markdown_bold (str "snake_case ") (str "a*b")
             (str " ~x")); reflexivity.
Defined.

(** C6, as stated, fails where the bold span is not the only match: in
    [_a **b** c_] the italic span begins first and takes the stars with
    it, so that the result has no bold run. *)
Lemma bold_span_inside_italic :
  ~ bold_span_result (str "_a ") (str "b") (str " c_").
Proof.
  unfold bold_span_result. vm_compute. discriminate.
Qed.

(** ** The block parser *)

(** The first characters of [s], read off a prefix test that holds; the
    tests of the other branches then evaluate. *)
Ltac head_of H :=
  let s' := fresh "s" in
  let E := fresh "E" in
  destruct (startswith_app _ _ H) as [s' E];
  rewrite E in *; cbn [list_ascii_of_string str app] in *.

Section Blocks.

(** One round of the outer loop, by the branch it takes. *)
Lemma blocks_from_cons line rest :
  blocks_from (line :: rest)
  = if is_empty (strip line) then blocks_from rest
    else if startswith (str "### ") (strip line) then
      heading_3 [plain (strip (skipn 4 (strip line)))] :: blocks_from rest
    else if startswith (str "## ") (strip line) then
      heading_2 [plain (strip (skipn 3 (strip line)))] :: blocks_from rest
    else if startswith (str "# ") (strip line) then
      heading_1 [plain (strip (skipn 2 (strip line)))] :: blocks_from rest
    else if startswith (str "- ") (strip line) then
      bulleted_list_item [plain (strip (skipn 2 (strip line)))]
        :: blocks_from rest
    else if is_match (match_numbered (strip line)) then
      numbered_list_item [plain (strip (sub_numbered (strip line)))]
        :: blocks_from rest
    else if startswith fence (strip line) then code_from [] rest
    else paragraph (parse_inline_markdown (strip line)) :: blocks_from rest.
Proof.
  cbn [blocks_from]. cbv zeta.
  rewrite (parse_inline_markdown_nonempty (strip line)). reflexivity.
Qed.

Lemma match_numbered_digits ds c r :
  ds <> [] -> forallb is_digit ds = true -> is_space c = true ->
  match_numbered (ds ++ "." :: c :: r) = Some (length ds + 2).
Proof.
  intros Hne Hd Hc. unfold match_numbered.
  assert (T : take_while is_digit (ds ++ "." :: c :: r) = ds
              /\ drop_while is_digit (ds ++ "." :: c :: r) = "." :: c :: r).
  { clear Hne. induction ds as [|d ds IH]; [split; reflexivity|].
    cbn [forallb] in Hd. apply andb_prop in Hd. destruct Hd as [Hd Hds].
    destruct (IH Hds) as [IT ID].
    cbn [app take_while drop_while]. rewrite Hd, IT, ID. split; reflexivity. }
  destruct T as [-> ->]. rewrite Hc.
  destruct ds; [congruence|reflexivity].
Qed.

Lemma is_digit_not c : is_digit c = true ->
  Ascii.eqb "#" c = false /\ Ascii.eqb "-" c = false.
Proof.
  intros H. split.
  - destruct (Ascii.eqb_spec "#" c) as [<-|_]; [discriminate|reflexivity].
  - destruct (Ascii.eqb_spec "-" c) as [<-|_]; [discriminate|reflexivity].
Qed.

(** The inner loop: the lines before the closing fence are gathered as
    they are; the closing fence is dropped and the outer loop goes on. *)
Lemma code_from_closed body : forall code_lines closing rest,
  Forall (fun l => startswith fence (strip l) = false) body ->
  startswith fence (strip closing) = true ->
  code_from code_lines (body ++ closing :: rest)
  = code_block (code_lines ++ body) :: blocks_from rest.
Proof.
  induction body as [|l body IH]; intros code_lines closing rest F C.
  - cbn [app code_from]. rewrite C, app_nil_r. reflexivity.
  - inversion F as [|? ? Hl F']; subst.
    cbn [app code_from]. rewrite Hl. cbn [negb].
    rewrite (IH _ _ _ F' C), <- app_assoc. reflexivity.
Qed.

Lemma code_from_open body : forall code_lines,
  Forall (fun l => startswith fence (strip l) = false) body ->
  code_from code_lines body = [code_block (code_lines ++ body)].
Proof.
  induction body as [|l body IH]; intros code_lines F.
  - cbn [code_from]. rewrite app_nil_r. reflexivity.
  - inversion F as [|? ? Hl F']; subst.
    cbn [code_from]. rewrite Hl. cbn [negb].
    rewrite (IH _ F'), <- app_assoc. reflexivity.
Qed.

Lemma blocks_from_fence opening rest :
  startswith fence (strip opening) = true ->
  blocks_from (opening :: rest) = code_from [] rest.
Proof.
  intros H. rewrite blocks_from_cons.
  unfold fence in *. head_of H. rewrite H. reflexivity.
Qed.

End Blocks.

(** C5: a line whose stripped form begins with [### ], [## ] or [# ] gives
    a heading of level 3, 2 or 1 whose only run is plain and holds what
    follows the marker, stripped (the inline parser is not applied); a line
    whose stripped form begins with a hash but with none of the three
    markers gives a paragraph. *)
Theorem blocks_from_heading (line : pystr) (rest : list pystr) :
  (startswith (str "### ") (strip line) = true ->
   blocks_from (line :: rest)
   = heading_3 [plain (strip (skipn 4 (strip line)))] :: blocks_from rest)
  /\ (startswith (str "## ") (strip line) = true ->
      blocks_from (line :: rest)
      = heading_2 [plain (strip (skipn 3 (strip line)))] :: blocks_from rest)
  /\ (startswith (str "# ") (strip line) = true ->
      blocks_from (line :: rest)
      = heading_1 [plain (strip (skipn 2 (strip line)))] :: blocks_from rest)
  /\ (startswith (str "#") (strip line) = true ->
      startswith (str "### ") (strip line) = false ->
      startswith (str "## ") (strip line) = false ->
      startswith (str "# ") (strip line) = false ->
      blocks_from (line :: rest)
      = paragraph (parse_inline_markdown (strip line)) :: blocks_from rest).
Proof.
  repeat split.
  - intros H. rewrite blocks_from_cons, H.
    head_of H. reflexivity.
  - intros H. rewrite blocks_from_cons, H.
    head_of H. reflexivity.
  - intros H. rewrite blocks_from_cons, H.
    head_of H. reflexivity.
  - intros H H3 H2 H1. rewrite blocks_from_cons, H3, H2, H1.
    head_of H. reflexivity.
Qed.

Lemma blocks_from_heading_witness :
  blocks_from [str "### Title"] = [heading_3 [plain (str "Title")]]
  /\ blocks_from [str "  ## **Title**  "] = [heading_2 [plain (str "**Title**")]]
  /\ blocks_from [str "# Title"] = [heading_1 [plain (str "Title")]]
  /\ blocks_from [str "#Title"] = [paragraph [plain (str "#Title")]].
Proof.
  split; [|split; [|split]].
  - destruct (blocks_from_heading (str "### Title") []) as [H _].
    exact (H eq_refl).
  - destruct (blocks_from_heading (str "  ## **Title**  ") []) as [_ [H _]].
    exact (H eq_refl).
  - destruct (blocks_from_heading (str "# Title") []) as [_ [_ [H _]]].
    exact (H eq_refl).
  - destruct (blocks_from_heading (str "#Title") []) as [_ [_ [_ H]]].
    exact (H eq_refl eq_refl eq_refl eq_refl).
Defined.

(** C9: the block parser is defined on every text ([blocks_from] is a
    total function, no step of the source can fail); a line that is blank
    once stripped gives no block, and a line that is not blank and that
    none of the heading, list and fence tests accepts gives a paragraph
    holding the inline parse of the stripped line. *)
Theorem blocks_from_degrades (line : pystr) (rest : list pystr) :
  (strip line = [] -> blocks_from (line :: rest) = blocks_from rest)
  /\ (strip line <> [] ->
      startswith (str "### ") (strip line) = false ->
      startswith (str "## ") (strip line) = false ->
      startswith (str "# ") (strip line) = false ->
      startswith (str "- ") (strip line) = false ->
      match_numbered (strip line) = None ->
      startswith fence (strip line) = false ->
      blocks_from (line :: rest)
      = paragraph (parse_inline_markdown (strip line)) :: blocks_from rest).
Proof.
  split.
  - intros H. rewrite blocks_from_cons, H. reflexivity.
  - intros Hne H3 H2 H1 Hb Hn Hf.
    rewrite blocks_from_cons, H3, H2, H1, Hb, Hn, Hf.
    destruct (strip line); [congruence|reflexivity].
Qed.

Lemma blocks_from_degrades_witness :
  blocks_from [str "   "; str "1.no space"]
  = [paragraph [plain (str "1.no space")]]
  /\ blocks_from [str "-x *y* ``"]
     = [paragraph [plain (str "-x "); styled italic (str "y"); plain (str " ``")]].
Proof.
  split.
  - destruct (blocks_from_degrades (str "   ") [str "1.no space"]) as [H _].
    rewrite (H eq_refl).
    destruct (blocks_from_degrades (str "1.no space") []) as [_ H'].
    apply H'; try reflexivity. discriminate.
  - destruct (blocks_from_degrades (str "-x *y* ``") []) as [_ H].
    apply H; try reflexivity. discriminate.
Defined.

(** C1, as the code has it: a line whose stripped form begins with [- ]
    gives a bullet item, and a line whose stripped form is digits, a dot,
    a whitespace character and a remainder gives a numbered item; in both
    the only run is plain and holds the remainder after the marker,
    stripped: the inline parser is not applied. *)
Theorem blocks_from_list_item (line : pystr) (rest : list pystr) :
  (startswith (str "- ") (strip line) = true ->
   blocks_from (line :: rest)
   = bulleted_list_item [plain (strip (skipn 2 (strip line)))]
       :: blocks_from rest)
  /\ (forall ds c r,
         ds <> [] -> forallb is_digit ds = true -> is_space c = true ->
         strip line = ds ++ "." :: c :: r ->
         blocks_from (line :: rest)
         = numbered_list_item [plain (strip r)] :: blocks_from rest).
Proof.
  split.
  - intros H. rewrite blocks_from_cons, H. head_of H. reflexivity.
  - intros ds c r Hne Hd Hc E.
    rewrite blocks_from_cons, E.
    unfold sub_numbered. rewrite (match_numbered_digits ds c r Hne Hd Hc).
    assert (Hk : skipn (length ds + 2) (ds ++ "." :: c :: r) = r).
    { rewrite skipn_app, skipn_all2 by lia.
      replace (length ds + 2 - length ds) with 2 by lia. reflexivity. }
    rewrite Hk.
    destruct ds as [|d ds]; [congruence|].
    cbn [forallb] in Hd. apply andb_prop in Hd. destruct Hd as [Hd _].
    destruct (is_digit_not d Hd) as [Hh Hm].
    cbn [app is_empty str list_ascii_of_string].
    rewrite !startswith_cons, Hh, Hm. reflexivity.
Qed.

Lemma blocks_from_list_item_witness :
  blocks_from [str "- **x**"] = [bulleted_list_item [plain (str "**x**")]]
  /\ blocks_from [str "12. *y*"] = [numbered_list_item [plain (str "*y*")]].
Proof.
  split.
  - destruct (blocks_from_list_item (str "- **x**") []) as [H _].
    exact (H eq_refl).
  - destruct (blocks_from_list_item (str "12. *y*") []) as [_ H].
    apply (H (str "12") " " (str "*y*")); try reflexivity. discriminate.
Defined.

(** C1, as stated, fails: the bullet item of [- **x**] holds the literal
    text with its stars, not the bold run the inline parser would give. *)
Lemma bullet_item_not_inline_parsed :
  bullet_item_inline_parsed (str "- **x**")
  = bulleted_list_item [styled bold (str "x")]
  /\ blocks_from [str "- **x**"]
     <> [bullet_item_inline_parsed (str "- **x**")].
Proof. split; [reflexivity|]. vm_compute. discriminate. Qed.

(** C4: at an opening fence, the lines up to the next fence line become
    the content of one code block, joined by line breaks as they are; the
    closing fence line gives nothing and the parser goes on after it; with
    no closing fence, all the remaining lines are the content. *)
Theorem blocks_from_code_fence (opening : pystr) (body : list pystr) :
  startswith fence (strip opening) = true ->
  Forall (fun l => startswith fence (strip l) = false) body ->
  (forall closing rest,
      startswith fence (strip closing) = true ->
      blocks_from (opening :: body ++ closing :: rest)
      = code [plain (join [newline] body)] (str "text") :: blocks_from rest)
  /\ blocks_from (opening :: body)
     = [code [plain (join [newline] body)] (str "text")].
Proof.
  intros Ho Hb. split.
  - intros closing rest Hc.
    rewrite (blocks_from_fence _ _ Ho).
    exact (code_from_closed body [] closing rest Hb Hc).
  - rewrite (blocks_from_fence _ _ Ho).
    exact (code_from_open body [] Hb).
Qed.

Lemma blocks_from_code_fence_witness :
  blocks_from [str "```python"; str "  line1 "; str ""; str "line2";
               str " ```"; str "after"]
  = [code [plain (join [newline] [str "  line1 "; str ""; str "line2"])]
       (str "text");
     paragraph [plain (str "after")]]
  /\ blocks_from [str "```"; str "line1"; str "line2"]
     = [code [plain (join [newline] [str "line1"; str "line2"])] (str "text")].
Proof.
  split.
  - destruct (blocks_from_code_fence (str "```python")
                [str "  line1 "; str ""; str "line2"] eq_refl) as [H _].
    + repeat constructor.
    + exact (H (str " ```") [str "after"] eq_refl).
  - destruct (blocks_from_code_fence (str "```")
                [str "line1"; str "line2"] eq_refl) as [_ H].
    + repeat constructor.
    + exact H.
Defined.

(** ** The title and section helpers *)

Section Extractors.

Lemma title_from_none lines :
  title_from lines = None
  <-> Forall (fun l => startswith (str "#") (strip l) = false) lines.
Proof.
  induction lines as [|l lines IH]; cbn [title_from].
  - split; [constructor|reflexivity].
  - destruct (startswith (str "#") (strip l)) eqn:E.
    + split; [discriminate|]. intros F. inversion F; congruence.
    + rewrite IH. split; intros F; [constructor; assumption|].
      inversion F; assumption.
Qed.

(** Before the named heading has been seen nothing is gathered. *)
Lemma section_loop_before name pre : forall rest section_content,
  Forall (fun l => match_section_heading name (strip l) = false) pre ->
  section_loop name (pre ++ rest) section_content false
  = section_loop name rest section_content false.
Proof.
  induction pre as [|l pre IH]; intros rest sc F; [reflexivity|].
  inversion F as [|? ? Hl F']; subst.
  cbn [app section_loop]. rewrite Hl. cbn [andb]. exact (IH _ _ F').
Qed.


End Extractors.

(** C2 at an indented heading: the hashes stay in the returned title,
    because the substitution is applied to the line as it stands and its
    pattern is anchored at the first character. *)
Theorem extract_title_indented_heading :
  extract_title_from_markdown (str "  ## My Doc") = Some (str "## My Doc").
Proof. reflexivity. Qed.

(** The rest of C2 holds: the absence value is returned exactly when no
    line begins with a hash once stripped, and a first heading line that
    is not indented gives its text without the hashes. *)
Lemma extract_title_absent (text : pystr) :
  extract_title_from_markdown text = None
  <-> Forall (fun l => startswith (str "#") (strip l) = false)
        (split newline text).
Proof. apply title_from_none. Qed.

Lemma title_from_first_heading (pre : list pystr) (line : pystr)
    (rest : list pystr) :
  Forall (fun l => startswith (str "#") (strip l) = false) pre ->
  startswith (str "#") line = true ->
  title_from (pre ++ line :: rest)
  = Some (strip (drop_while is_space (drop_while (Ascii.eqb "#") line))).
Proof.
  intros F H. induction pre as [|l pre IH].
  - cbn [app title_from]. unfold sub_hashes. rewrite H.
    assert (Hs : startswith (str "#") (strip line) = true).
    { destruct (startswith_app _ _ H) as [s' ->].
      cbn [str list_ascii_of_string app].
      rewrite (strip_cons "#" s' eq_refl). reflexivity. }
    rewrite Hs. reflexivity.
  - inversion F as [|? ? Hl F']; subst.
    cbn [app title_from]. rewrite Hl. exact (IH F').
Qed.




(** ** The scenarios of the specification *)

(** The block parser on a text is the outer loop on its lines. *)
Lemma markdown_to_notion_blocks_lines (lines : list pystr) :
  lines <> [] ->
  Forall (Forall (fun c => c <> newline)) lines ->
  markdown_to_notion_blocks (join [newline] lines) = blocks_from lines.
Proof.
  intros Hne F. unfold markdown_to_notion_blocks.
  rewrite (split_join newline lines Hne F). reflexivity.
Qed.

Example markdown_to_notion_blocks_scenario :
  markdown_to_notion_blocks (str "# Title

Some **bold** text.
- item one
- item two
```
code here
```")
  = [heading_1 [plain (str "Title")];
     paragraph [plain (str "Some "); styled bold (str "bold");
                plain (str " text.")];
     bulleted_list_item [plain (str "item one")];
     bulleted_list_item [plain (str "item two")];
     code [plain (str "code here")] (str "text")].
Proof. reflexivity. Qed.

Example parse_inline_markdown_precedence :
  parse_inline_markdown (str "**_x_** ~~y~~ _z_")
  = [styled bold (str "_x_"); plain (str " ");
     styled strikethrough (str "y"); plain (str " ");
     styled italic (str "z")].
Proof. reflexivity. Qed.

(** The leftmost match wins and spans do not nest: a bold span inside an
    italic one is part of the italic text. *)
Example parse_inline_markdown_leftmost_first :
  parse_inline_markdown (str "_a **b** c_") = [styled italic (str "a **b** c")].
Proof. reflexivity. Qed.

Example extract_title_scenario :
  extract_title_from_markdown (str "intro
## My Doc
# Later") = Some (str "My Doc")
  /\ extract_title_from_markdown (str "no heading here") = None.
Proof. split; reflexivity. Qed.

Example extract_section_found :
  extract_section (str "# Abstract
first line
  second line  

## Next
text") (str "ABSTRACT")
  = Some (str "first line
  second line").
Proof. reflexivity. Qed.

(** A section heading that comes back keeps the section open. *)
Example extract_section_repeated_heading :
  extract_section (str "# A
# A
text") (str "A") = Some (str "text").
Proof. reflexivity. Qed.

(** * Further properties *)

(** ** More on strings *)

Section MoreStringFacts.

Lemma visible_blank t : forallb is_space t = true -> visible t = [].
Proof.
  unfold visible. induction t as [|c t IH]; intros H; [reflexivity|].
  cbn [forallb] in H. apply andb_prop in H. destruct H as [Hc Ht].
  cbn [filter]. rewrite Hc. cbn [negb]. exact (IH Ht).
Qed.

Lemma visible_app a b : visible (a ++ b) = visible a ++ visible b.
Proof. apply filter_app. Qed.

Lemma visible_strip s : visible (strip s) = visible s.
Proof.
  unfold strip.
  destruct (lstrip_split s) as [t [Et Ft]].
  destruct (rstrip_split (lstrip s)) as [u [Eu Fu]].
  rewrite Et at 2. rewrite visible_app, (visible_blank _ Ft).
  rewrite Eu at 2. rewrite visible_app, (visible_blank _ Fu), app_nil_r.
  reflexivity.
Qed.

Lemma drop_while_idem p s : drop_while p (drop_while p s) = drop_while p s.
Proof.
  destruct (drop_while p s) as [|c r] eqn:E; [reflexivity|].
  cbn [drop_while]. rewrite (drop_while_head _ _ _ _ E). reflexivity.
Qed.

Lemma rstrip_idem s : rstrip (rstrip s) = rstrip s.
Proof.
  unfold rstrip. rewrite rev_involutive, drop_while_idem. reflexivity.
Qed.

(** Stripping the right end keeps the left end free of whitespace. *)
Lemma lstrip_rstrip_lstrip s : lstrip (rstrip (lstrip s)) = rstrip (lstrip s).
Proof.
  destruct (rstrip (lstrip s)) as [|c r] eqn:E; [reflexivity|].
  pose proof (strip_head s c r E) as Hc.
  unfold lstrip. cbn [drop_while]. rewrite Hc. reflexivity.
Qed.

Lemma strip_idem s : strip (strip s) = strip s.
Proof.
  unfold strip at 1. unfold strip.
  rewrite lstrip_rstrip_lstrip. apply rstrip_idem.
Qed.

(** The last character of a stripped string is not whitespace. *)
Lemma strip_last s a c : strip s = a ++ [c] -> is_space c = false.
Proof.
  unfold strip, rstrip. intros H.
  apply (f_equal (@rev ascii)) in H.
  rewrite rev_involutive, rev_app_distr in H. cbn [rev app] in H.
  exact (drop_while_head _ _ _ _ H).
Qed.

Lemma visible_nonempty_strip s : visible s <> [] -> strip s <> [].
Proof.
  intros H E. apply H. rewrite <- visible_strip, E. reflexivity.
Qed.

End MoreStringFacts.

(** ** More on the chunker *)

Section MoreChunker.

Variable M : Z.

Lemma chunk_step_visible content :
  visible content
  = visible (chunk_emit content M) ++ visible (chunk_rest content M).
Proof.
  unfold chunk_emit, chunk_rest, slice_to, slice_from.
  rewrite !visible_strip, <- visible_app, firstn_skipn. reflexivity.
Qed.

Lemma chunk_loop_visible fuel : forall content chunks,
  chunk_loop fuel content M = Some chunks ->
  visible (concat chunks) = visible content.
Proof.
  induction fuel as [|fuel IH]; intros content chunks H; [discriminate|].
  cbn [chunk_loop] in H. destruct (0 <? len content)%Z eqn:E0.
  - destruct (len content <=? M)%Z.
    + inversion H; subst. cbn [concat]. rewrite app_nil_r. reflexivity.
    + destruct (chunk_loop fuel (chunk_rest content M) M) as [cs|] eqn:Ec;
        [|discriminate].
      inversion H; subst. cbn [concat].
      rewrite visible_app, (IH _ _ Ec). symmetry. apply chunk_step_visible.
  - inversion H; subst. destruct content; [reflexivity|discriminate].
Qed.

Lemma chunk_loop_stripped fuel : forall content chunks,
  stripped_str content ->
  chunk_loop fuel content M = Some chunks ->
  Forall stripped_str chunks.
Proof.
  induction fuel as [|fuel IH]; intros content chunks Hs H; [discriminate|].
  cbn [chunk_loop] in H. destruct (0 <? len content)%Z.
  - destruct (len content <=? M)%Z.
    + inversion H; subst. constructor; [exact Hs|constructor].
    + destruct (chunk_loop fuel (chunk_rest content M) M) as [cs|] eqn:Ec;
        [|discriminate].
      inversion H; subst. constructor.
      * apply strip_idem.
      * apply (IH _ _ (strip_idem _) Ec).
  - inversion H; subst. constructor.
Qed.

Hypothesis M_pos : (1 <= M)%Z.

Lemma chunk_emit_nonempty content :
  content <> [] -> lstrip content = content -> chunk_emit content M <> [].
Proof.
  intros Hne Hl. destruct content as [|c content]; [congruence|].
  assert (Hc : is_space c = false).
  { unfold lstrip in Hl. cbn [drop_while] in Hl.
    destruct (is_space c) eqn:E; [|reflexivity].
    pose proof (drop_while_length is_space content) as L.
    rewrite Hl in L. cbn [length] in L. lia. }
  unfold chunk_emit, slice_to.
  pose proof (chunk_cut_range M M_pos (c :: content)) as R.
  rewrite slice_bound_pos by lia.
  destruct (Nat.min (length (c :: content)) (Z.to_nat (chunk_cut (c :: content) M)))
    as [|k] eqn:Ek; [cbn [length] in Ek; lia|].
  cbn [firstn]. rewrite (strip_cons _ _ Hc). discriminate.
Qed.

Lemma chunk_loop_nonempty fuel : forall content chunks,
  lstrip content = content ->
  chunk_loop fuel content M = Some chunks ->
  Forall (fun c => c <> []) chunks.
Proof.
  induction fuel as [|fuel IH]; intros content chunks Hl H; [discriminate|].
  cbn [chunk_loop] in H. destruct (0 <? len content)%Z eqn:E0.
  - assert (Hne : content <> []) by (intros ->; discriminate).
    destruct (len content <=? M)%Z.
    + inversion H; subst. constructor; [exact Hne|constructor].
    + destruct (chunk_loop fuel (chunk_rest content M) M) as [cs|] eqn:Ec;
        [|discriminate].
      inversion H; subst. constructor.
      * exact (chunk_emit_nonempty content Hne Hl).
      * apply (IH _ _ (lstrip_rstrip_lstrip _) Ec).
  - inversion H; subst. constructor.
Qed.

End MoreChunker.

Lemma chunk_rest_zero content : chunk_rest content 0 = strip content.
Proof.
  assert (E : chunk_cut content 0 = 0%Z).
  { unfold chunk_cut, rfind, slice_to, slice_bound.
    cbn [Z.ltb Z.compare Z.to_nat]. rewrite Nat.min_0_r. reflexivity. }
  unfold chunk_rest, slice_from. rewrite E.
  unfold slice_bound. cbn [Z.ltb Z.compare Z.to_nat].
  rewrite Nat.min_0_r. reflexivity.
Qed.

(** X1: whatever the chunk size, when the chunker returns, its chunks put
    end to end hold the non-whitespace characters of the text, all of them
    and in their order: cutting and stripping only ever remove whitespace. *)
Theorem chunk_content_keeps_visible (S : pystr) (M : Z) (chunks : list pystr) :
  chunk_content S M = Some chunks ->
  visible (concat chunks) = visible S.
Proof. apply chunk_loop_visible. Qed.

Lemma chunk_content_keeps_visible_witness :
  visible (concat [str ""; str "hello"; str "world"; str "foo"])
  = visible (str "  hello   world foo ").
Proof.
  apply (chunk_content_keeps_visible (str "  hello   world foo ") 7).
  reflexivity.
Defined.

(** X2: when the text is longer than the chunk size, every chunk returned,
    the last one too, has no whitespace at either end. *)
Theorem chunk_content_stripped (S : pystr) (M : Z) (chunks : list pystr) :
  chunk_content S M = Some chunks ->
  (M < len S)%Z ->
  Forall stripped_str chunks.
Proof.
  unfold chunk_content. cbn [chunk_loop]. intros H L.
  destruct (0 <? len S)%Z.
  - destruct (len S <=? M)%Z eqn:E; [apply Z.leb_le in E; lia|].
    destruct (chunk_loop (length S) (chunk_rest S M) M) as [cs|] eqn:Ec;
      [|discriminate].
    inversion H; subst. constructor.
    + apply strip_idem.
    + exact (chunk_loop_stripped M _ _ _ (strip_idem _) Ec).
  - inversion H; subst. constructor.
Qed.

Lemma chunk_content_stripped_witness :
  Forall stripped_str [str "ab"; str "cd	ef"; str "gh"].
Proof.
  apply (chunk_content_stripped (str "ab	 cd	ef gh") 6); [reflexivity|].
  vm_compute. reflexivity.
Defined.

(** X3: for a chunk size of at least 1 and a text that does not begin
    with whitespace, no chunk is empty. *)
Theorem chunk_content_no_empty_chunk (S : pystr) (M : Z) (chunks : list pystr) :
  (1 <= M)%Z ->
  lstrip S = S ->
  chunk_content S M = Some chunks ->
  Forall (fun c => c <> []) chunks.
Proof.
  intros HM Hl H. exact (chunk_loop_nonempty M HM _ _ _ Hl H).
Qed.

Lemma chunk_content_no_empty_chunk_witness :
  Forall (fun c => c <> []) [str "hello"; str "world"; str "foo bar"].
Proof.
  apply (chunk_content_no_empty_chunk (str "hello world foo bar") 7);
    [lia|reflexivity|reflexivity].
Defined.

(** Leading whitespace can give an empty chunk. *)
Example chunk_content_empty_chunk :
  chunk_content (str "   x") 2 = Some [str ""; str "x"].
Proof. reflexivity. Qed.

(** X4: with a chunk size of 0 the loop does not end on any text that is
    not blank: each round emits an empty chunk and leaves the stripped
    text as it was. *)
Theorem chunk_loop_size_zero_diverges (S : pystr) :
  strip S <> [] -> forall fuel, chunk_loop fuel S 0 = None.
Proof.
  intros Hne fuel.
  assert (Hstuck : forall fuel', chunk_loop fuel' (strip S) 0 = None).
  { apply chunk_loop_stuck.
    - destruct (strip S); [congruence|reflexivity].
    - destruct (strip S); [congruence|reflexivity].
    - rewrite chunk_rest_zero. apply strip_idem. }
  destruct fuel as [|fuel]; [reflexivity|].
  cbn [chunk_loop].
  destruct S as [|c S]; [exfalso; apply Hne; reflexivity|].
  change (0 <? len (c :: S))%Z with true.
  change (len (c :: S) <=? 0)%Z with false. cbv iota.
  rewrite chunk_rest_zero, Hstuck. reflexivity.
Qed.

Lemma chunk_loop_size_zero_diverges_witness :
  strip (str " some text ") <> []
  /\ forall fuel, chunk_loop fuel (str " some text ") 0 = None.
Proof.
  split; [discriminate|].
  apply (chunk_loop_size_zero_diverges (str " some text ")).
  discriminate.
Defined.

(** ** More on the inline parser *)

Section MoreInline.

Lemma dot_plus_lazy_sound close : forall s t,
  dot_plus_lazy close s = Some t ->
  t <> [] /\ exists rest, s = t ++ close ++ rest.
Proof.
  induction s as [|c s IH]; intros t H; [discriminate|].
  cbn [dot_plus_lazy] in H.
  destruct (Ascii.eqb c newline); [discriminate|].
  destruct (startswith close s) eqn:E.
  - inversion H; subst. split; [discriminate|].
    destruct (startswith_app _ _ E) as [rest ->]. exists rest. reflexivity.
  - destruct (dot_plus_lazy close s) as [t'|] eqn:Et; [|discriminate].
    inversion H; subst. split; [discriminate|].
    destruct (IH t' eq_refl) as [_ [rest ->]]. exists rest. reflexivity.
Qed.

Lemma delimited_sound d s t :
  delimited d s = Some t ->
  t <> [] /\ exists rest, s = d ++ t ++ d ++ rest.
Proof.
  unfold delimited. destruct (startswith d s) eqn:E; [|discriminate].
  destruct (startswith_app _ _ E) as [s' ->].
  rewrite skipn_app, Nat.sub_diag, skipn_all. cbn [app skipn].
  intros H. destruct (dot_plus_lazy_sound _ _ _ H) as [Hne [rest ->]].
  split; [exact Hne|]. exists rest. reflexivity.
Qed.

(** What a match is made of: a delimiter, a non-empty text, the same
    delimiter; the group tells which delimiter. *)
Lemma match_here_sound s g t n :
  match_here s = Some (g, t, n) ->
  exists d rest,
    s = d ++ t ++ d ++ rest
    /\ n = length d + length t + length d
    /\ t <> []
    /\ forallb is_marker d = true
    /\ In (d, style_of_group g) inline_delimiters
    /\ 1 <= g <= 5.
Proof.
  unfold match_here. intros H.
  repeat match type of H with
    | match ?d with Some _ => _ | None => _ end = _ =>
        let E := fresh "E" in destruct d eqn:E
    end; try discriminate;
    inversion H; subst;
    match goal with
    | E : delimited ?d _ = Some _ |- _ =>
        destruct (delimited_sound _ _ _ E) as [Hne [rest Hs]];
        exists d, rest
    end;
    (split; [exact Hs|]);
    (split; [cbn [length str list_ascii_of_string]; lia|]);
    (split; [exact Hne|]);
    (split; [reflexivity|]);
    (split; [|lia]);
    cbn [inline_delimiters style_of_group In]; tauto.
Qed.

Lemma unmarked_app a b : unmarked (a ++ b) = unmarked a ++ unmarked b.
Proof. apply filter_app. Qed.

Lemma unmarked_markers d : forallb is_marker d = true -> unmarked d = [].
Proof.
  unfold unmarked. induction d as [|c d IH]; intros H; [reflexivity|].
  cbn [forallb] in H. apply andb_prop in H. destruct H as [Hc Hd].
  cbn [filter]. rewrite Hc. cbn [negb]. exact (IH Hd).
Qed.

(** The loop body on a match of group 1 to 5 with a non-empty text. *)
Lemma inline_step_match text rich_text last_end a b g t :
  t <> [] -> 1 <= g <= 5 ->
  inline_step text (rich_text, last_end) (mk_match a b g t)
  = ((if (last_end <? a)%nat
      then rich_text ++ [plain (slice text last_end a)]
      else rich_text) ++ [styled (style_of_group g) t], b).
Proof.
  intros Hne Hg. destruct t as [|c t]; [congruence|].
  destruct g as [|[|[|[|[|[|g]]]]]]; try lia; reflexivity.
Qed.

Lemma firstn_split (a b : nat) (l : pystr) :
  a <= b -> firstn b l = firstn a l ++ firstn (b - a) (skipn a l).
Proof.
  intros H. rewrite <- (firstn_skipn a l) at 1.
  rewrite firstn_app, firstn_firstn, length_firstn.
  replace (Nat.min b a) with a by lia.
  destruct (Nat.le_gt_cases a (length l)) as [L|L].
  - replace (Nat.min a (length l)) with a by lia. reflexivity.
  - rewrite !skipn_all2 by lia. rewrite !firstn_nil. reflexivity.
Qed.

End MoreInline.

Section InlineInvariant.

Variable text : pystr.

Lemma run_text_app r1 r2 : run_text (r1 ++ r2) = run_text r1 ++ run_text r2.
Proof. unfold run_text. rewrite map_app, concat_app. reflexivity. Qed.

Lemma slice_nonempty a b : a < b -> a < length text -> slice text a b <> [].
Proof.
  intros H L E. apply (f_equal (@length ascii)) in E.
  unfold slice in E. rewrite length_firstn, length_skipn in E.
  cbn [length] in E. lia.
Qed.

Lemma inline_inv_match rich_text last_end pos g t n d rest :
  inline_invariant text (rich_text, last_end) ->
  last_end <= pos ->
  skipn pos text = d ++ t ++ d ++ rest ->
  n = length d + length t + length d ->
  t <> [] -> forallb is_marker d = true -> 1 <= g <= 5 ->
  inline_invariant text (inline_step text (rich_text, last_end)
                (mk_match pos (pos + n) g t)).
Proof.
  intros [Hle [Hz [Hne Hu]]] Hp Hs Hn Ht Hd Hg.
  rewrite (inline_step_match _ _ _ _ _ _ _ Ht Hg).
  assert (Hlen : pos + n <= length text).
  { pose proof (length_skipn pos text) as L. rewrite Hs in L.
    assert (0 < length t) by (destruct t; [congruence|cbn [length]; lia]).
    rewrite !length_app in L. lia. }
  assert (Hseg : firstn n (skipn pos text) = d ++ t ++ d).
  { rewrite Hs.
    replace (d ++ t ++ d ++ rest) with ((d ++ t ++ d) ++ rest)
      by (rewrite <- !app_assoc; reflexivity).
    rewrite firstn_app.
    replace (n - length (d ++ t ++ d)) with 0
      by (rewrite !length_app; lia).
    rewrite firstn_all2 by (rewrite !length_app; lia).
    cbn [firstn]. apply app_nil_r. }
  assert (Hfirst : firstn (pos + n) text
                   = firstn last_end text ++ slice text last_end pos
                     ++ d ++ t ++ d).
  { rewrite (firstn_split pos (pos + n)) by lia.
    rewrite (firstn_split last_end pos) by lia.
    replace (pos + n - pos) with n by lia.
    rewrite Hseg, <- app_assoc. reflexivity. }
  unfold inline_invariant. split; [exact Hlen|]. split.
  { intros E. destruct (if (last_end <? pos)%nat then _ else _); discriminate. }
  destruct (Nat.ltb_spec last_end pos) as [Hlt|Hge].
  - split.
    + apply Forall_app. split; [apply Forall_app; split|].
      * exact Hne.
      * constructor; [|constructor]. apply slice_nonempty; lia.
      * constructor; [exact Ht|constructor].
    + rewrite !run_text_app, Hfirst, !unmarked_app, Hu.
      unfold run_text. cbn [map concat content plain styled].
      rewrite !app_nil_r, (unmarked_markers d Hd), app_nil_r.
      rewrite <- app_assoc. reflexivity.
  - split.
    + apply Forall_app. split; [exact Hne|].
      constructor; [exact Ht|constructor].
    + assert (Hsl : slice text last_end pos = []).
      { unfold slice. replace (pos - last_end) with 0 by lia. reflexivity. }
      rewrite run_text_app, Hfirst, Hsl, !unmarked_app, Hu.
      unfold run_text. cbn [map concat content styled].
      rewrite !app_nil_r, (unmarked_markers d Hd), app_nil_r.
      reflexivity.
Qed.

Lemma skipn_cons_next pos (c : ascii) s :
  skipn pos text = c :: s ->
  skipn (pos + 1) text = s /\ pos + 1 <= length text.
Proof.
  intros H. split.
  - rewrite Nat.add_comm, <- skipn_skipn, H. reflexivity.
  - pose proof (length_skipn pos text) as L. rewrite H in L.
    cbn [length] in L. lia.
Qed.

Lemma inline_fold_inv fuel : forall pos s st,
  skipn pos text = s ->
  snd st <= pos ->
  inline_invariant text st ->
  inline_invariant text (fold_left (inline_step text) (finditer_from fuel pos s) st).
Proof.
  induction fuel as [|fuel IH]; intros pos s [rich_text last_end] Hs Hp Hi;
    [exact Hi|].
  cbn [snd] in Hp. destruct s as [|c s]; [exact Hi|].
  cbn [finditer_from].
  destruct (match_here (c :: s)) as [[[g t] n]|] eqn:E.
  - destruct (match_here_sound _ _ _ _ E)
      as [d [rest [Hd [Hn [Ht [Hm [_ Hg]]]]]]].
    cbn [fold_left].
    assert (Hi' : inline_invariant text (inline_step text (rich_text, last_end)
                                (mk_match pos (pos + n) g t))).
    { apply (inline_inv_match _ _ _ _ _ _ d rest); try assumption.
      rewrite Hs. exact Hd. }
    apply IH; [|rewrite (inline_step_match _ _ _ _ _ _ _ Ht Hg); cbn [snd]; lia
              |exact Hi'].
    rewrite <- Hs, skipn_skipn. f_equal. lia.
  - destruct (skipn_cons_next _ _ _ Hs) as [Hs' _].
    apply IH; [exact Hs'|cbn [snd]; lia|exact Hi].
Qed.

Lemma inline_loop_inv :
  inline_invariant text (fold_left (inline_step text) (finditer text) ([], 0)).
Proof.
  apply inline_fold_inv; [reflexivity|cbn [snd]; lia|].
  unfold inline_invariant. split; [lia|]. split; [reflexivity|].
  split; [constructor|reflexivity].
Qed.

End InlineInvariant.

Lemma parse_inline_markdown_cases (text : pystr) :
  (text = [] /\ parse_inline_markdown text = [plain []])
  \/ (text <> []
      /\ Forall (fun r => content r <> []) (parse_inline_markdown text)
      /\ unmarked (run_text (parse_inline_markdown text)) = unmarked text).
Proof.
  destruct text as [|c0 text0]; [left; split; reflexivity|].
  right. split; [discriminate|].
  set (text := c0 :: text0).
  unfold parse_inline_markdown.
  pose proof (inline_loop_inv text) as H.
  destruct (fold_left (inline_step text) (finditer text) ([], 0))
    as [rich_text last_end].
  destruct H as [Hle [Hz [Hne Hu]]].
  destruct (Nat.ltb_spec last_end (length text)) as [Hlt|Hge].
  - assert (Hk : skipn last_end text <> []).
    { intros E. apply (f_equal (@length ascii)) in E.
      rewrite length_skipn in E. cbn [length] in E, Hlt. lia. }
    destruct (rich_text ++ [plain (skipn last_end text)]) as [|r rs] eqn:E.
    + destruct rich_text; discriminate.
    + rewrite <- E. split.
      * apply Forall_app. split; [exact Hne|constructor; [exact Hk|constructor]].
      * rewrite run_text_app, unmarked_app, Hu.
        unfold run_text. cbn [map concat content plain].
        rewrite app_nil_r, <- unmarked_app, firstn_skipn. reflexivity.
  - destruct rich_text as [|r rs].
    + specialize (Hz eq_refl). subst last_end.
      cbn [length text] in Hge. lia.
    + split; [exact Hne|].
      rewrite Hu, firstn_all2 by lia. reflexivity.
Qed.

(** X5: on a text that is not empty, no run of the result has an empty
    content.  (On the empty text the result is the single empty plain
    run.) *)
Theorem parse_inline_markdown_runs_nonempty (text : pystr) :
  text <> [] ->
  Forall (fun r => content r <> []) (parse_inline_markdown text).
Proof.
  intros Hne.
  destruct (parse_inline_markdown_cases text) as [[E _]|[_ [H _]]];
    [congruence|exact H].
Qed.

Lemma parse_inline_markdown_runs_nonempty_witness :
  Forall (fun r => content r <> [])
    (parse_inline_markdown (str "**a**__b__ *** ~~")).
Proof.
  apply (parse_inline_markdown_runs_nonempty (str "**a**__b__ *** ~~")).
  discriminate.
Defined.

(** X6: the runs of the result, end to end, hold every character of the
    text that is not one of [*], [_], [~], in the same order: the parser
    drops nothing but delimiters. *)
Theorem parse_inline_markdown_keeps_unmarked (text : pystr) :
  unmarked (run_text (parse_inline_markdown text)) = unmarked text.
Proof.
  destruct (parse_inline_markdown_cases text) as [[-> E]|[_ [_ H]]];
    [rewrite E; reflexivity|exact H].
Qed.

(** ** Single spans and unclosed delimiters *)

Section Spans.

Lemma marker_neq m c :
  is_marker m = true -> is_marker c = false -> Ascii.eqb m c = false.
Proof.
  intros Hm Hc. destruct (Ascii.eqb_spec m c) as [->|_]; [congruence|reflexivity].
Qed.

Lemma startswith_self p : forall s, startswith p (p ++ s) = true.
Proof.
  induction p as [|a p IH]; intros s; [reflexivity|].
  cbn [app]. rewrite startswith_cons, Ascii.eqb_refl. exact (IH s).
Qed.

Lemma startswith_marker_plain m d s :
  is_marker m = true -> no_marker s = true -> startswith (m :: d) s = false.
Proof.
  intros Hm Hs. destruct s as [|c s]; [reflexivity|].
  cbn [no_marker forallb] in Hs. apply andb_prop in Hs. destruct Hs as [Hc _].
  apply negb_true_iff in Hc.
  rewrite startswith_cons, (marker_neq _ _ Hm Hc). reflexivity.
Qed.

Lemma span_inner_cons c s :
  span_inner (c :: s) = true ->
  is_marker c = false /\ Ascii.eqb c newline = false /\ span_inner s = true.
Proof.
  cbn [span_inner forallb]. intros H.
  apply andb_prop in H. destruct H as [Hc Hs].
  apply andb_prop in Hc. destruct Hc as [Hm Hn].
  apply negb_true_iff in Hm. apply negb_true_iff in Hn.
  repeat split; assumption.
Qed.

(** The lazy group takes the whole inner text when it holds no marker. *)
Lemma dot_plus_lazy_span m d inner : forall post,
  is_marker m = true -> inner <> [] -> span_inner inner = true ->
  dot_plus_lazy (m :: d) (inner ++ (m :: d) ++ post) = Some inner.
Proof.
  induction inner as [|c inner IH]; intros post Hm Hne H; [congruence|].
  destruct (span_inner_cons _ _ H) as [_ [Hnl Hi]].
  cbn [app dot_plus_lazy]. rewrite Hnl.
  destruct inner as [|c' inner].
  - cbn [app]. rewrite startswith_cons, Ascii.eqb_refl, startswith_self.
    reflexivity.
  - destruct (span_inner_cons _ _ Hi) as [Hc' _].
    change (startswith (m :: d) ((c' :: inner) ++ m :: d ++ post))
      with (Ascii.eqb m c' && startswith d (inner ++ m :: d ++ post)).
    rewrite (marker_neq _ _ Hm Hc'). cbn [andb].
    change ((c' :: inner) ++ m :: d ++ post)
      with ((c' :: inner) ++ (m :: d) ++ post).
    rewrite (IH post Hm); [reflexivity|discriminate|exact Hi].
Qed.

Lemma delimited_span m d inner post :
  is_marker m = true -> inner <> [] -> span_inner inner = true ->
  delimited (m :: d) ((m :: d) ++ inner ++ (m :: d) ++ post) = Some inner.
Proof.
  intros Hm Hne H. unfold delimited.
  rewrite startswith_self, skipn_app, Nat.sub_diag, skipn_all.
  cbn [app skipn]. exact (dot_plus_lazy_span m d inner post Hm Hne H).
Qed.

Lemma delimited_mismatch d s : startswith d s = false -> delimited d s = None.
Proof. unfold delimited. intros ->. reflexivity. Qed.

(** Each delimiter around a plain inner text is matched by its own
    alternative of the pattern. *)
Lemma match_here_span d a inner post :
  In (d, a) inline_delimiters ->
  inner <> [] -> span_inner inner = true ->
  exists g,
    match_here (d ++ inner ++ d ++ post)
    = Some (g, inner, length d + length inner + length d)
    /\ style_of_group g = a.
Proof.
  intros Hin Hne H.
  destruct inner as [|i0 inner]; [congruence|].
  destruct (span_inner_cons _ _ H) as [Hi0 _].
  destruct (is_marker_false _ Hi0) as [Hs [Hu Ht]].
  unfold match_here.
  cbn [inline_delimiters In] in Hin.
  destruct Hin as [E|[E|[E|[E|[E|[]]]]]]; inversion E; subst d a; clear E;
    cbn [str list_ascii_of_string].
  - exists 1. rewrite (delimited_span "*" ["*"] _ post eq_refl Hne H).
    split; [f_equal; f_equal; cbn [length str list_ascii_of_string]; lia
           |reflexivity].
  - exists 2.
    rewrite (delimited_mismatch ["*"; "*"]) by reflexivity.
    rewrite (delimited_span "_" ["_"] _ post eq_refl Hne H).
    split; [f_equal; f_equal; cbn [length str list_ascii_of_string]; lia
           |reflexivity].
  - exists 3.
    rewrite (delimited_mismatch ["*"; "*"]) by reflexivity.
    rewrite (delimited_mismatch ["_"; "_"]) by reflexivity.
    rewrite (delimited_span "~" ["~"] _ post eq_refl Hne H).
    split; [f_equal; f_equal; cbn [length str list_ascii_of_string]; lia
           |reflexivity].
  - exists 4.
    rewrite (delimited_mismatch ["*"; "*"]) by reflexivity.
    rewrite (delimited_mismatch ["_"; "_"])
      by (cbn [app];
          rewrite !startswith_cons, Hu; reflexivity).
    rewrite (delimited_mismatch ["~"; "~"]) by reflexivity.
    rewrite (delimited_span "_" [] _ post eq_refl Hne H).
    split; [f_equal; f_equal; cbn [length str list_ascii_of_string]; lia
           |reflexivity].
  - exists 5.
    rewrite (delimited_mismatch ["*"; "*"])
      by (cbn [app];
          rewrite !startswith_cons, Hs; reflexivity).
    rewrite (delimited_mismatch ["_"; "_"]) by reflexivity.
    rewrite (delimited_mismatch ["~"; "~"]) by reflexivity.
    rewrite (delimited_mismatch ["_"]) by reflexivity.
    rewrite (delimited_span "*" [] _ post eq_refl Hne H).
    split; [f_equal; f_equal; cbn [length str list_ascii_of_string]; lia
           |reflexivity].
Qed.

End Spans.

Section SingleMatch.

Lemma finditer_single pre c s g t n :
  no_marker pre = true ->
  match_here (c :: s) = Some (g, t, n) ->
  no_marker (skipn n (c :: s)) = true ->
  finditer (pre ++ c :: s) = [mk_match (length pre) (length pre + n) g t].
Proof.
  intros Hpre Hm Hpost. unfold finditer.
  rewrite length_app, (finditer_from_skip pre _ 0 _ Hpre).
  cbn [length]. rewrite (finditer_from_match _ _ _ _ _ _ _ Hm).
  rewrite (finditer_from_no_marker _ _ _ Hpost). reflexivity.
Qed.

(** The result on a text with exactly one match, between plain texts. *)
Lemma parse_inline_single pre c s g t n :
  no_marker pre = true ->
  match_here (c :: s) = Some (g, t, n) ->
  no_marker (skipn n (c :: s)) = true ->
  parse_inline_markdown (pre ++ c :: s)
  = plain_run pre ++ [styled (style_of_group g) t]
    ++ plain_run (skipn n (c :: s)).
Proof.
  intros Hpre Hm Hpost.
  destruct (match_here_sound _ _ _ _ Hm) as [d [rest [_ [_ [Ht [_ [_ Hg]]]]]]].
  unfold parse_inline_markdown.
  rewrite (finditer_single pre c s g t n Hpre Hm Hpost).
  cbn [fold_left]. rewrite (inline_step_match _ _ _ _ _ _ _ Ht Hg).
  rewrite slice_prefix.
  assert (Hk : skipn (length pre + n) (pre ++ c :: s) = skipn n (c :: s)).
  { rewrite skipn_app, skipn_all2 by lia.
    replace (length pre + n - length pre) with n by lia. reflexivity. }
  rewrite Hk.
  assert (Hl : length (skipn n (c :: s)) = length (c :: s) - n)
    by apply length_skipn.
  rewrite length_app. unfold plain_run.
  destruct pre as [|p pre]; destruct (skipn n (c :: s)) as [|q post];
    cbn [is_empty length] in *;
    repeat match goal with
      | |- context [(?a <? ?b)%nat] => destruct (Nat.ltb_spec a b); try lia
      end; reflexivity.
Qed.

End SingleMatch.

(** X7: each of the five delimiters gives its own style: in a text
    [pre d inner d post] where [d] is one of [**], [__], [~~], [_], [*],
    [inner] is not empty, and no part holds another marker character or
    [inner] a line break, the result is one run for [inner] annotated bold
    (for [**] and [__]), strikethrough (for [~~]) or italic (for [_] and
    [*]), between the plain runs of [pre] and [post] (each left out when
    empty). *)
Theorem parse_inline_markdown_span (d : pystr) (a : annotation)
    (pre inner post : pystr) :
  In (d, a) inline_delimiters ->
  no_marker pre = true -> no_marker post = true ->
  inner <> [] -> span_inner inner = true ->
  parse_inline_markdown (pre ++ d ++ inner ++ d ++ post)
  = plain_run pre ++ [styled a inner] ++ plain_run post.
Proof.
  intros Hin Hpre Hpost Hne Hi.
  destruct (match_here_span d a inner post Hin Hne Hi) as [g [Hm Hg]].
  assert (Hd : exists c d', d = c :: d').
  { cbn [inline_delimiters In] in Hin.
    destruct Hin as [E|[E|[E|[E|[E|[]]]]]]; inversion E;
      eexists; eexists; reflexivity. }
  destruct Hd as [c [d' ->]].
  assert (Hk : skipn (length (c :: d') + length inner + length (c :: d'))
                 ((c :: d') ++ inner ++ (c :: d') ++ post) = post).
  { replace ((c :: d') ++ inner ++ (c :: d') ++ post)
      with (((c :: d') ++ inner ++ (c :: d')) ++ post)
      by (rewrite <- !app_assoc; reflexivity).
    rewrite skipn_app, skipn_all2 by (rewrite !length_app; lia).
    replace (_ - _) with 0 by (rewrite !length_app; lia). reflexivity. }
  change ((c :: d') ++ inner ++ (c :: d') ++ post)
    with (c :: d' ++ inner ++ (c :: d') ++ post) in *.
  rewrite (parse_inline_single pre c _ g inner _ Hpre Hm);
    rewrite Hk; [rewrite Hg; reflexivity|exact Hpost].
Qed.

Lemma parse_inline_markdown_span_witness :
  parse_inline_markdown (str "a ~~gone~~ b")
  = [plain (str "a "); styled strikethrough (str "gone"); plain (str " b")]
  /\ parse_inline_markdown (str "__strong__")
     = [styled bold (str "strong")]
  /\ parse_inline_markdown (str "an _em_")
     = [plain (str "an "); styled italic (str "em")].
Proof.
  split; [|split].
  - apply (parse_inline_markdown_span (str "~~") strikethrough
             (str "a ") (str "gone") (str " b"));
      try reflexivity; [cbn; tauto|discriminate].
  - apply (parse_inline_markdown_span (str "__") bold
             (str "") (str "strong") (str ""));
      try reflexivity; [cbn; tauto|discriminate].
  - apply (parse_inline_markdown_span (str "_") italic
             (str "an ") (str "em") (str ""));
      try reflexivity; [cbn; tauto|discriminate].
Defined.

Section Unclosed.

Lemma no_marker_tail c s : no_marker (c :: s) = true -> no_marker s = true.
Proof.
  cbn [no_marker forallb]. intros H. apply andb_prop in H. exact (proj2 H).
Qed.

Lemma no_marker_skipn k : forall s,
  no_marker s = true -> no_marker (skipn k s) = true.
Proof.
  induction k as [|k IH]; intros s H; [exact H|].
  destruct s as [|c s]; [exact H|].
  cbn [skipn]. apply IH. exact (no_marker_tail _ _ H).
Qed.

Lemma no_marker_app a b :
  no_marker a = true -> no_marker b = true -> no_marker (a ++ b) = true.
Proof.
  unfold no_marker. intros Ha Hb. rewrite forallb_app, Ha, Hb. reflexivity.
Qed.

(** Without a marker further on, a closing delimiter is never found. *)
Lemma dot_plus_lazy_plain m d : forall s,
  is_marker m = true -> no_marker s = true ->
  dot_plus_lazy (m :: d) s = None.
Proof.
  induction s as [|c s IH]; intros Hm Hs; [reflexivity|].
  cbn [dot_plus_lazy]. destruct (Ascii.eqb c newline); [reflexivity|].
  pose proof (no_marker_tail _ _ Hs) as Hs'.
  rewrite (startswith_marker_plain m d s Hm Hs'), (IH Hm Hs'). reflexivity.
Qed.

Lemma dot_plus_lazy_after_head m d s :
  is_marker m = true -> no_marker_after_head s ->
  dot_plus_lazy (m :: d) s = None.
Proof.
  intros Hm [Hs|[c [s' [-> Hs']]]].
  - exact (dot_plus_lazy_plain m d s Hm Hs).
  - cbn [dot_plus_lazy]. destruct (Ascii.eqb c newline); [reflexivity|].
    rewrite (startswith_marker_plain m d s' Hm Hs').
    rewrite (dot_plus_lazy_plain m d s' Hm Hs'). reflexivity.
Qed.

Lemma delimited_after_head m d s :
  is_marker m = true ->
  no_marker_after_head (skipn (length (m :: d)) s) ->
  delimited (m :: d) s = None.
Proof.
  intros Hm H. unfold delimited.
  destruct (startswith (m :: d) s); [|reflexivity].
  exact (dot_plus_lazy_after_head m d _ Hm H).
Qed.

Lemma match_here_after_head s :
  no_marker_after_head (skipn 1 s) -> no_marker_after_head (skipn 2 s) ->
  match_here s = None.
Proof.
  intros H1 H2. unfold match_here. cbn [str list_ascii_of_string].
  rewrite (delimited_after_head "*" ["*"] s eq_refl H2).
  rewrite (delimited_after_head "_" ["_"] s eq_refl H2).
  rewrite (delimited_after_head "~" ["~"] s eq_refl H2).
  rewrite (delimited_after_head "_" [] s eq_refl H1).
  rewrite (delimited_after_head "*" [] s eq_refl H1).
  reflexivity.
Qed.

(** No match in a text whose only marker characters are at most two,
    next to each other. *)
Lemma finditer_unclosed pre d post :
  no_marker pre = true -> no_marker post = true -> length d <= 2 ->
  finditer (pre ++ d ++ post) = [].
Proof.
  intros Hpre Hpost Hd. unfold finditer.
  rewrite length_app, (finditer_from_skip pre _ 0 _ Hpre).
  destruct d as [|m1 [|m2 [|m3 d]]]; [| | |cbn [length] in Hd; lia].
  - apply finditer_from_no_marker. exact Hpost.
  - cbn [app length finditer_from].
    rewrite match_here_after_head.
    + apply finditer_from_no_marker. exact Hpost.
    + left. exact Hpost.
    + left. change (skipn 2 (m1 :: post)) with (skipn 1 post).
      apply no_marker_skipn. exact Hpost.
  - cbn [app length finditer_from].
    rewrite match_here_after_head.
    + rewrite match_here_after_head.
      * apply finditer_from_no_marker. exact Hpost.
      * left. exact Hpost.
      * left. change (skipn 2 (m2 :: post)) with (skipn 1 post).
        apply no_marker_skipn. exact Hpost.
    + right. exists m2, post. split; [reflexivity|exact Hpost].
    + left. exact Hpost.
Qed.

End Unclosed.

(** X8: a delimiter that is never closed stays literal: a text whose only
    marker characters are one or two next to each other ([**] or a lone
    [_], say) comes back whole as a single plain run. *)
Theorem parse_inline_markdown_unclosed (pre d post : pystr) :
  no_marker pre = true -> no_marker post = true -> length d <= 2 ->
  parse_inline_markdown (pre ++ d ++ post) = [plain (pre ++ d ++ post)].
Proof.
  intros Hpre Hpost Hd. unfold parse_inline_markdown.
  rewrite (finditer_unclosed pre d post Hpre Hpost Hd). cbn [fold_left].
  destruct (pre ++ d ++ post); reflexivity.
Qed.

Lemma parse_inline_markdown_unclosed_witness :
  parse_inline_markdown (str "an **unclosed bold")
  = [plain (str "an **unclosed bold")]
  /\ parse_inline_markdown (str "snake_case") = [plain (str "snake_case")].
Proof.
  split.
  - apply (parse_inline_markdown_unclosed (str "an ") (str "**")
             (str "unclosed bold")); [reflexivity|reflexivity|simpl; lia].
  - apply (parse_inline_markdown_unclosed (str "snake") (str "_")
             (str "case")); [reflexivity|reflexivity|simpl; lia].
Defined.

(** ** More on the block parser *)

Section MoreBlocks.

(** One round of the outer loop: a fence line starts the inner loop, any
    other line gives its block, if any, and the loop goes on. *)
Lemma blocks_from_step line rest :
  blocks_from (line :: rest)
  = if is_fence_line line then code_from [] rest
    else match line_block line with
         | Some b => b :: blocks_from rest
         | None => blocks_from rest
         end.
Proof.
  unfold is_fence_line. destruct (startswith fence (strip line)) eqn:F.
  - apply blocks_from_fence. exact F.
  - rewrite blocks_from_cons. unfold line_block. rewrite F.
    repeat match goal with
      | |- context [if ?b then _ else _] => destruct b
      end; reflexivity.
Qed.

Lemma code_from_step code_lines l rest :
  code_from code_lines (l :: rest)
  = if is_fence_line l then code_block code_lines :: blocks_from rest
    else code_from (code_lines ++ [l]) rest.
Proof.
  unfold is_fence_line. cbn [code_from].
  destruct (startswith fence (strip l)); reflexivity.
Qed.

(** A property of the block of every line and of every code block holds
    of every block of the output. *)
Lemma blocks_from_Forall (P : block -> Prop) :
  (forall code_lines, P (code_block code_lines)) ->
  (forall line b, line_block line = Some b -> P b) ->
  forall lines,
    Forall P (blocks_from lines)
    /\ forall code_lines, Forall P (code_from code_lines lines).
Proof.
  intros Hc Hl. induction lines as [|line rest [IHb IHc]].
  - split; [constructor|].
    intros code_lines. constructor; [apply Hc|constructor].
  - split.
    + rewrite blocks_from_step. destruct (is_fence_line line); [apply IHc|].
      destruct (line_block line) as [b|] eqn:E; [|exact IHb].
      constructor; [exact (Hl _ _ E)|exact IHb].
    + intros code_lines. rewrite code_from_step.
      destruct (is_fence_line line); [|apply IHc].
      constructor; [apply Hc|exact IHb].
Qed.

Lemma blocks_code_length lines :
  length (blocks_from lines) <= length lines
  /\ forall code_lines, length (code_from code_lines lines) <= S (length lines).
Proof.
  induction lines as [|line rest [IHb IHc]].
  - split; [reflexivity|]. intros code_lines. cbn. lia.
  - split.
    + rewrite blocks_from_step. cbn [length].
      destruct (is_fence_line line); [apply IHc|].
      destruct (line_block line); cbn [length]; lia.
    + intros code_lines. rewrite code_from_step. cbn [length].
      destruct (is_fence_line line); cbn [length].
      * lia.
      * specialize (IHc (code_lines ++ [line])). lia.
Qed.

Lemma line_block_blank line :
  line_block line = None <-> is_blank line = true.
Proof.
  unfold line_block, is_blank.
  destruct (is_empty (strip line)); [split; reflexivity|].
  repeat match goal with
    | |- context [if ?b then _ else _] => destruct b
    end; split; discriminate.
Qed.

End MoreBlocks.

(** X9: outside fenced regions the parser works line by line: when no line
    of the first part is a fence line, the blocks of two parts put end to
    end are the blocks of the first followed by the blocks of the second. *)
Theorem blocks_from_app (lines1 lines2 : list pystr) :
  Forall (fun l => is_fence_line l = false) lines1 ->
  blocks_from (lines1 ++ lines2) = blocks_from lines1 ++ blocks_from lines2.
Proof.
  induction lines1 as [|line rest IH]; intros F; [reflexivity|].
  inversion F as [|? ? Hl F']; subst.
  cbn [app]. rewrite !blocks_from_step, Hl.
  destruct (line_block line); rewrite (IH F'); reflexivity.
Qed.

Lemma blocks_from_app_witness :
  blocks_from ([str "# T"; str ""; str "- a"] ++ [str "```"; str "x"])
  = blocks_from [str "# T"; str ""; str "- a"]
    ++ blocks_from [str "```"; str "x"].
Proof.
  apply (blocks_from_app [str "# T"; str ""; str "- a"] [str "```"; str "x"]).
  repeat constructor.
Defined.

(** X10: in a text without fence lines every line that is not blank gives
    exactly one block: there are as many blocks as non-blank lines. *)
Theorem blocks_from_count (lines : list pystr) :
  Forall (fun l => is_fence_line l = false) lines ->
  length (blocks_from lines)
  = length (filter (fun l => negb (is_blank l)) lines).
Proof.
  induction lines as [|line rest IH]; intros F; [reflexivity|].
  inversion F as [|? ? Hl F']; subst.
  rewrite blocks_from_step, Hl. cbn [filter].
  destruct (line_block line) as [b|] eqn:E.
  - destruct (is_blank line) eqn:B.
    + apply line_block_blank in B. congruence.
    + cbn [negb length]. rewrite (IH F'). reflexivity.
  - apply line_block_blank in E. rewrite E. cbn [negb]. exact (IH F').
Qed.

Lemma blocks_from_count_witness :
  length (blocks_from [str "# T"; str "  "; str "text"; str ""; str "1. x"])
  = 3.
Proof.
  apply (blocks_from_count
           [str "# T"; str "  "; str "text"; str ""; str "1. x"]).
  repeat constructor.
Defined.

(** X11: the parser never gives more blocks than the text has lines. *)
Theorem markdown_to_notion_blocks_length (markdown_text : pystr) :
  length (markdown_to_notion_blocks markdown_text)
  <= length (split newline markdown_text).
Proof.
  unfold markdown_to_notion_blocks. apply blocks_code_length.
Qed.

Section BlockText.

Lemma line_block_shape line b : line_block line = Some b -> block_shape b.
Proof.
  unfold line_block.
  repeat match goal with
    | |- context [if ?c then _ else _] => destruct c
    end; intros H; inversion H; subst; cbn [block_shape];
    try (eexists; split; [reflexivity|apply strip_idem]).
  pose proof (parse_inline_markdown_nonempty (strip line)) as N.
  intros E. rewrite E in N. discriminate.
Qed.

(** What follows a whitespace character inside a stripped line is not
    blank. *)
Lemma strip_after_space line q w r :
  strip line = (q ++ [w]) ++ r -> is_space w = true -> strip r <> [].
Proof.
  intros E Hw. apply visible_nonempty_strip.
  destruct (rev r) as [|c r'] eqn:R.
  - apply (f_equal (@rev ascii)) in R. rewrite rev_involutive in R.
    cbn [rev] in R. subst r. rewrite app_nil_r in E.
    pose proof (strip_last _ _ _ E). congruence.
  - apply (f_equal (@rev ascii)) in R. rewrite rev_involutive in R.
    cbn [rev] in R. subst r. rewrite app_assoc in E.
    pose proof (strip_last _ _ _ E) as Hc.
    rewrite visible_app. unfold visible at 2. cbn [filter].
    rewrite Hc. cbn [negb]. intros F. apply app_eq_nil in F.
    destruct F as [_ F]. discriminate.
Qed.

Lemma take_drop_while p s : s = take_while p s ++ drop_while p s.
Proof.
  induction s as [|c s IH]; [reflexivity|].
  cbn [take_while drop_while]. destruct (p c); [|reflexivity].
  cbn [app]. f_equal. exact IH.
Qed.

Lemma match_numbered_sound s n :
  match_numbered s = Some n ->
  exists ds c r,
    s = (ds ++ ["."] ++ [c]) ++ r /\ is_space c = true /\ skipn n s = r.
Proof.
  unfold match_numbered. intros H.
  pose proof (take_drop_while is_digit s) as E.
  destruct (take_while is_digit s) as [|d ds]; [discriminate|].
  destruct (drop_while is_digit s) as [|x [|c r]]; [discriminate| |].
  { destruct x as [[] [] [] [] [] [] [] []]; discriminate H. }
  destruct x as [[] [] [] [] [] [] [] []]; cbv iota in H; try discriminate H.
  destruct (is_space c) eqn:Hc; cbv iota in H; [|discriminate H].
  inversion H; subst n. exists (d :: ds), c, r.
  split; [|split; [exact Hc|]].
  - rewrite E at 1. rewrite <- !app_assoc. reflexivity.
  - rewrite E at 1. rewrite skipn_app, skipn_all2 by (cbn [length]; lia).
    cbn [length].
    replace (S (length ds + 2) - S (length ds)) with 2 by lia.
    reflexivity.
Qed.

Lemma heading_text_nonempty p line :
  startswith (p ++ [" "]) (strip line) = true ->
  strip (skipn (length (p ++ [" "])) (strip line)) <> [].
Proof.
  intros H. destruct (startswith_app _ _ H) as [r E].
  rewrite E, skipn_app, Nat.sub_diag, skipn_all. cbn [app skipn].
  exact (strip_after_space line p " " r E eq_refl).
Qed.

Lemma line_block_text line b :
  line_block line = Some b ->
  Forall (fun r => content r <> []) (rich_text_of b).
Proof.
  unfold line_block.
  destruct (is_empty (strip line)) eqn:E0; [discriminate|].
  destruct (startswith (str "### ") (strip line)) eqn:E3.
  { intros H. inversion H; subst. cbn [rich_text_of].
    constructor; [|constructor].
    exact (heading_text_nonempty (str "###") line E3). }
  destruct (startswith (str "## ") (strip line)) eqn:E2.
  { intros H. inversion H; subst. cbn [rich_text_of].
    constructor; [|constructor].
    exact (heading_text_nonempty (str "##") line E2). }
  destruct (startswith (str "# ") (strip line)) eqn:E1.
  { intros H. inversion H; subst. cbn [rich_text_of].
    constructor; [|constructor].
    exact (heading_text_nonempty (str "#") line E1). }
  destruct (startswith (str "- ") (strip line)) eqn:Eb.
  { intros H. inversion H; subst. cbn [rich_text_of].
    constructor; [|constructor].
    exact (heading_text_nonempty (str "-") line Eb). }
  destruct (match_numbered (strip line)) as [n|] eqn:En.
  { intros H. inversion H; subst. cbn [rich_text_of].
    constructor; [|constructor].
    unfold sub_numbered. rewrite En.
    destruct (match_numbered_sound _ _ En) as [ds [c [r [Es [Hc Hk]]]]].
    rewrite Hk. cbn [content plain].
    rewrite app_assoc in Es.
    exact (strip_after_space line _ c r Es Hc). }
  intros H. inversion H; subst. cbn [rich_text_of is_match].
  destruct (parse_inline_markdown_cases (strip line)) as [[E _]|[_ [F _]]].
  - rewrite E in E0. discriminate.
  - exact F.
Qed.

End BlockText.

(** X12: every block of the output has the shape the Notion API is sent:
    a paragraph has at least one run; a heading or a list item has exactly
    one run, plain, whose text is stripped; a code block has exactly one
    plain run and the language ["text"], whatever follows the backticks of
    its opening fence. *)
Theorem markdown_to_notion_blocks_shape (markdown_text : pystr) :
  Forall block_shape (markdown_to_notion_blocks markdown_text).
Proof.
  unfold markdown_to_notion_blocks.
  apply (blocks_from_Forall block_shape).
  - intros code_lines. split; [eexists; reflexivity|reflexivity].
  - exact line_block_shape.
Qed.

(** X13: no heading, list item or paragraph of the output holds a run
    with an empty text: only a code block can be empty. *)
Theorem markdown_to_notion_blocks_no_empty_text (markdown_text : pystr) :
  Forall (fun b => is_code b = false ->
                   Forall (fun r => content r <> []) (rich_text_of b))
    (markdown_to_notion_blocks markdown_text).
Proof.
  unfold markdown_to_notion_blocks.
  apply (blocks_from_Forall
           (fun b => is_code b = false ->
                     Forall (fun r => content r <> []) (rich_text_of b))).
  - intros code_lines H. discriminate.
  - intros line b E _. exact (line_block_text line b E).
Qed.

(** An empty fenced region gives a code block with an empty text. *)
Example markdown_to_notion_blocks_empty_code :
  markdown_to_notion_blocks (str "```
```") = [code [plain []] (str "text")].
Proof. reflexivity. Qed.

(** ** More on the title and section helpers *)

Section MoreExtractors.

Lemma strip_lstrip s : strip (lstrip s) = strip s.
Proof. unfold strip, lstrip. rewrite drop_while_idem. reflexivity. Qed.

Lemma title_from_some lines :
  (exists t, title_from lines = Some t)
  <-> Exists (fun l => startswith (str "#") (strip l) = true) lines.
Proof.
  induction lines as [|l lines IH]; cbn [title_from].
  - split; [intros [t H]; discriminate|intros H; inversion H].
  - destruct (startswith (str "#") (strip l)) eqn:E.
    + split; [intros _; left; exact E|intros _; eexists; reflexivity].
    + rewrite IH. split; intros H; [right; exact H|].
      inversion H; subst; [congruence|assumption].
Qed.

Lemma title_from_first (pre : list pystr) (line : pystr) (rest : list pystr) :
  Forall (fun l => startswith (str "#") (strip l) = false) pre ->
  startswith (str "#") (strip line) = true ->
  title_from (pre ++ line :: rest) = Some (strip (sub_hashes line)).
Proof.
  intros F H. induction pre as [|l pre IH].
  - cbn [app title_from]. rewrite H. reflexivity.
  - inversion F as [|? ? Hl F']; subst.
    cbn [app title_from]. rewrite Hl. exact (IH F').
Qed.

Lemma match_section_heading_hash name stripped :
  match_section_heading name stripped = true ->
  starts_with_hash stripped = true.
Proof.
  destruct stripped as [|c s]; [discriminate|].
  cbn [match_section_heading starts_with_hash]. intros H.
  apply andb_prop in H. exact (proj1 H).
Qed.

(** Inside the section, up to a line that begins with a hash and is not
    the named heading, the lines that are neither blank nor the named
    heading again are gathered. *)
Lemma section_loop_body name body : forall rest section_content,
  Forall (fun l => starts_with_hash (strip l) = false
                   \/ match_section_heading name (strip l) = true) body ->
  section_loop name (body ++ rest) section_content true
  = section_loop name rest
      (section_content ++ filter (section_line name) body) true.
Proof.
  induction body as [|l body IH]; intros rest sc F.
  - cbn [app filter]. rewrite app_nil_r. reflexivity.
  - inversion F as [|? ? Hl F']; subst.
    cbn [app section_loop filter]. unfold section_line at 1.
    destruct (match_section_heading name (strip l)) eqn:Hm.
    { rewrite andb_false_r. exact (IH _ _ F'). }
    destruct Hl as [Hl|Hl]; [|congruence].
    rewrite Hl. cbn [andb negb]. rewrite andb_true_r. unfold is_blank.
    destruct (is_empty (strip l)); cbn [negb].
    + exact (IH _ _ F').
    + rewrite (IH _ _ F'), <- app_assoc. reflexivity.
Qed.

Lemma match_literal_ci_lower name1 : forall name2 s,
  map to_lower name1 = map to_lower name2 ->
  match_literal_ci name1 s = match_literal_ci name2 s.
Proof.
  induction name1 as [|a name1 IH]; intros [|b name2] s E;
    try discriminate; [reflexivity|].
  cbn [map] in E. inversion E as [[Ea En]].
  destruct s as [|c s]; [reflexivity|].
  cbn [match_literal_ci]. rewrite Ea, (IH name2 s En). reflexivity.
Qed.

Lemma match_section_heading_lower name1 name2 stripped :
  map to_lower name1 = map to_lower name2 ->
  match_section_heading name1 stripped = match_section_heading name2 stripped.
Proof.
  intros E.
  assert (Ht : forall s, match_name_tail name1 s = match_name_tail name2 s).
  { intros s. unfold match_name_tail.
    rewrite (match_literal_ci_lower _ _ s E). reflexivity. }
  assert (Hw : forall s, match_ws_name name1 s = match_ws_name name2 s).
  { induction s as [|c s IH]; cbn [match_ws_name]; rewrite Ht;
      [reflexivity|rewrite IH; reflexivity]. }
  assert (Hh : forall s, match_hashes_name name1 s = match_hashes_name name2 s).
  { induction s as [|c s IH]; cbn [match_hashes_name]; rewrite Hw;
      [reflexivity|rewrite IH; reflexivity]. }
  destruct stripped as [|c s]; [reflexivity|].
  cbn [match_section_heading]. rewrite Hh. reflexivity.
Qed.

Lemma section_loop_lower name1 name2 lines :
  map to_lower name1 = map to_lower name2 ->
  forall section_content in_section,
    section_loop name1 lines section_content in_section
    = section_loop name2 lines section_content in_section.
Proof.
  intros E. induction lines as [|l lines IH]; intros sc b; [reflexivity|].
  cbn [section_loop].
  rewrite (match_section_heading_lower name1 name2 _ E), !IH. reflexivity.
Qed.

Lemma match_literal_ci_self name1 : forall name2,
  map to_lower name1 = map to_lower name2 ->
  match_literal_ci name1 name2 = Some [].
Proof.
  induction name1 as [|a name1 IH]; intros [|b name2] E;
    try discriminate; [reflexivity|].
  cbn [map] in E. inversion E as [[Ea En]].
  cbn [match_literal_ci]. rewrite Ea, Ascii.eqb_refl. exact (IH name2 En).
Qed.

Lemma match_ws_name_spaces name name' ws :
  forallb is_space ws = true ->
  map to_lower name = map to_lower name' ->
  match_ws_name name (ws ++ name') = true.
Proof.
  intros Hw E.
  assert (Ht : match_name_tail name name' = true).
  { unfold match_name_tail. rewrite (match_literal_ci_self _ _ E).
    reflexivity. }
  induction ws as [|c ws IH].
  - cbn [app]. destruct name'; cbn [match_ws_name]; rewrite Ht;
      [reflexivity|apply orb_true_r].
  - cbn [forallb] in Hw. apply andb_prop in Hw. destruct Hw as [Hc Hws].
    cbn [app match_ws_name]. rewrite Hc, (IH Hws). reflexivity.
Qed.

Lemma match_hashes_name_levels name s k :
  match_ws_name name s = true ->
  match_hashes_name name (repeat "#" k ++ s) = true.
Proof.
  intros H. induction k as [|k IH].
  - cbn [repeat app]. destruct s; cbn [match_hashes_name]; rewrite H;
      [reflexivity|apply orb_true_r].
  - cbn [repeat app match_hashes_name]. rewrite IH. reflexivity.
Qed.

End MoreExtractors.

(** X14: the title is taken from the first line that begins with a hash
    once stripped, whatever comes after it; when that line itself begins
    with a hash, the title is the line without its leading run of hashes,
    stripped. *)
Theorem extract_title_first_heading (text : pystr) (pre : list pystr)
    (line : pystr) (rest : list pystr) :
  split newline text = pre ++ line :: rest ->
  Forall (fun l => startswith (str "#") (strip l) = false) pre ->
  startswith (str "#") line = true ->
  extract_title_from_markdown text
  = Some (strip (drop_while (Ascii.eqb "#") line)).
Proof.
  intros E F H. unfold extract_title_from_markdown. rewrite E.
  rewrite (title_from_first_heading pre line rest F H).
  change (drop_while is_space (drop_while (Ascii.eqb "#") line))
    with (lstrip (drop_while (Ascii.eqb "#") line)).
  rewrite strip_lstrip. reflexivity.
Qed.

Lemma extract_title_first_heading_witness :
  extract_title_from_markdown (str "intro
###   Deep  title  
# Later") = Some (str "Deep  title").
Proof.
  apply (extract_title_first_heading _ [str "intro"] (str "###   Deep  title  ")
           [str "# Later"]); [reflexivity| |reflexivity].
  repeat constructor.
Defined.

(** X15: when the first line that begins with a hash once stripped is
    indented, the title is that line stripped, its hashes included: the
    substitution that removes them only looks at the very start of the
    line. *)
Theorem extract_title_indented (text : pystr) (pre : list pystr)
    (line : pystr) (rest : list pystr) :
  split newline text = pre ++ line :: rest ->
  Forall (fun l => startswith (str "#") (strip l) = false) pre ->
  startswith (str "#") (strip line) = true ->
  startswith (str "#") line = false ->
  extract_title_from_markdown text = Some (strip line).
Proof.
  intros E F H Hi. unfold extract_title_from_markdown. rewrite E.
  rewrite (title_from_first pre line rest F H).
  unfold sub_hashes. rewrite Hi. reflexivity.
Qed.

Lemma extract_title_indented_witness :
  extract_title_from_markdown (str "intro
	# Indented
# Later") = Some (str "# Indented").
Proof.
  apply (extract_title_indented _ [str "intro"] (str "	# Indented")
           [str "# Later"]); [reflexivity| |reflexivity|reflexivity].
  repeat constructor.
Defined.

(** X16: a title is returned exactly when some line of the text begins
    with a hash once stripped. *)
Theorem extract_title_found_iff (text : pystr) :
  (exists title, extract_title_from_markdown text = Some title)
  <-> Exists (fun l => startswith (str "#") (strip l) = true)
        (split newline text).
Proof. apply title_from_some. Qed.

(** X17: the section is made of the lines that follow the first line
    matching the named heading, up to the end of the text or to the next
    line that begins with a hash and is not the named heading again: the
    blank lines and the repeats of the named heading are dropped, the
    other lines are kept as they are and joined by line breaks, and the
    whole is stripped; with no line kept the result is the absence
    value. *)
Theorem extract_section_body (text section_name : pystr)
    (pre : list pystr) (heading : pystr) (body after : list pystr) :
  split newline text = pre ++ heading :: body ++ after ->
  Forall (fun l => match_section_heading section_name (strip l) = false) pre ->
  match_section_heading section_name (strip heading) = true ->
  Forall (fun l => starts_with_hash (strip l) = false
                   \/ match_section_heading section_name (strip l) = true)
    body ->
  after = []
  \/ (exists next rest,
         after = next :: rest
         /\ starts_with_hash (strip next) = true
         /\ match_section_heading section_name (strip next) = false) ->
  extract_section text section_name
  = match filter (section_line section_name) body with
    | [] => None
    | kept => Some (strip (join [newline] kept))
    end.
Proof.
  intros E Fp Hh Fb Ha. unfold extract_section. rewrite E.
  rewrite (section_loop_before _ _ _ [] Fp).
  cbn [section_loop]. rewrite Hh.
  rewrite (section_loop_body _ _ _ [] Fb). cbn [app].
  assert (Hend : section_loop section_name after
                   (filter (section_line section_name) body) true
                 = filter (section_line section_name) body).
  { destruct Ha as [->|[next [rest [-> [Hn Hm]]]]]; [reflexivity|].
    cbn [section_loop]. rewrite Hm, Hn. reflexivity. }
  rewrite Hend.
  destruct (filter (section_line section_name) body); reflexivity.
Qed.

Lemma extract_section_body_witness :
  extract_section (str "# Title
## Abstract
  first  

# ABSTRACT
second
### Detail
deep") (str "abstract")
  = Some (str "first  
second").
Proof.
  apply (extract_section_body (str "# Title
## Abstract
  first  

# ABSTRACT
second
### Detail
deep") (str "abstract") [str "# Title"] (str "## Abstract")
           [str "  first  "; str ""; str "# ABSTRACT"; str "second"]
           [str "### Detail"; str "deep"]).
  - reflexivity.
  - repeat constructor.
  - reflexivity.
  - constructor; [left; reflexivity|].
    constructor; [left; reflexivity|].
    constructor; [right; reflexivity|].
    constructor; [left; reflexivity|constructor].
  - right. exists (str "### Detail"), [str "deep"].
    split; [reflexivity|]. split; reflexivity.
Defined.

(** X18: on characters below U+0100 the section name is matched without
    regard to case, character by character: two names of the same length
    whose characters are pairwise equal once each is lowered give the same
    result on every text. *)
Theorem extract_section_case_insensitive (text name1 name2 : pystr) :
  map to_lower name1 = map to_lower name2 ->
  extract_section text name1 = extract_section text name2.
Proof.
  intros E. unfold extract_section.
  rewrite (section_loop_lower name1 name2 _ E). reflexivity.
Qed.

Lemma extract_section_case_insensitive_witness :
  extract_section (str "# Abstract
text") (str "ABSTRACT")
  = extract_section (str "# Abstract
text") (str "abstract").
Proof.
  apply (extract_section_case_insensitive _ (str "ABSTRACT") (str "abstract")).
  reflexivity.
Defined.

(** X19: a heading of any level opens the section: a stripped line made
    of one or more hashes, any run of whitespace (none too) and a text
    whose characters (below U+0100) are, one by one and once lowered,
    those of the name, matches the heading pattern. *)
Theorem match_section_heading_any_level (name name' ws : pystr) (k : nat) :
  forallb is_space ws = true ->
  map to_lower name = map to_lower name' ->
  match_section_heading name (repeat "#" (S k) ++ ws ++ name') = true.
Proof.
  intros Hw E. cbn [repeat app match_section_heading].
  rewrite match_hashes_name_levels; [reflexivity|].
  exact (match_ws_name_spaces name name' ws Hw E).
Qed.

Lemma match_section_heading_any_level_witness :
  match_section_heading (str "Key Points") (str "####Key points") = true
  /\ match_section_heading (str "Key Points") (str "#  	KEY POINTS") = true.
Proof.
  split.
  - apply (match_section_heading_any_level (str "Key Points")
             (str "Key points") [] 3); reflexivity.
  - apply (match_section_heading_any_level (str "Key Points")
             (str "KEY POINTS") (str "  	") 0); reflexivity.
Defined.

(** ** The requests to Notion *)

Section Batches.

Context {A : Type}.
Variable step : nat.
Hypothesis step_pos : 1 <= step.

Lemma list_slice_step (l : list A) i :
  list_slice l i (i + step) = firstn step (skipn i l).
Proof.
  unfold list_slice. replace (i + step - i) with step by lia. reflexivity.
Qed.

Lemma batches_concat k : forall l : list A,
  length l <= k * step ->
  concat (map (fun j => firstn step (skipn (j * step) l)) (seq 0 k)) = l.
Proof.
  induction k as [|k IH]; intros l L.
  - destruct l; [reflexivity|cbn [length] in L; lia].
  - cbn [seq map concat]. rewrite <- seq_shift, map_map.
    cbn [Nat.mul skipn].
    rewrite (map_ext _ (fun j => firstn step (skipn (j * step) (skipn step l)))).
    + rewrite IH; [apply firstn_skipn|].
      rewrite length_skipn. cbn [Nat.mul] in L. lia.
    + intros j. rewrite skipn_skipn. f_equal. f_equal. cbn [Nat.mul]. lia.
Qed.

Lemma range_count_covers n : n <= (n + step - 1) / step * step.
Proof.
  pose proof (Nat.div_mod_eq (n + step - 1) step) as E.
  pose proof (Nat.mod_upper_bound (n + step - 1) step) as B.
  nia.
Qed.

Lemma range_count_tight n j : j < (n + step - 1) / step -> j * step < n.
Proof.
  intros H.
  pose proof (Nat.div_mod_eq (n + step - 1) step) as E.
  nia.
Qed.

Lemma py_range_batches (l : list A) :
  concat (map (fun i => list_slice l i (i + step))
            (py_range 0 (length l) step)) = l.
Proof.
  unfold py_range. rewrite map_map, Nat.sub_0_r.
  rewrite (map_ext _ (fun j => firstn step (skipn (j * step) l))).
  - apply batches_concat. apply range_count_covers.
  - intros j. cbn [Nat.add]. apply list_slice_step.
Qed.

Lemma py_range_batch_size (l : list A) i :
  In i (py_range 0 (length l) step) ->
  1 <= length (list_slice l i (i + step)) <= step.
Proof.
  unfold py_range. rewrite Nat.sub_0_r. intros H.
  apply in_map_iff in H. destruct H as [j [<- Hj]].
  apply in_seq in Hj. cbn [Nat.add] in *.
  pose proof (range_count_tight (length l) j) as T.
  rewrite list_slice_step, length_firstn, length_skipn. lia.
Qed.

End Batches.

Lemma add_content_to_page_spec (notion_token page content : pystr) :
  flat_map appended_blocks (add_content_to_page notion_token page content)
  = markdown_to_notion_blocks content
  /\ Forall (appends_to page) (add_content_to_page notion_token page content).
Proof.
  unfold add_content_to_page. split.
  - rewrite flat_map_concat_map, map_map. cbn [appended_blocks].
    apply py_range_batches. lia.
  - apply Forall_forall. intros r Hr.
    apply in_map_iff in Hr. destruct Hr as [i [<- Hi]].
    eexists. split; [reflexivity|].
    apply py_range_batch_size; [lia|exact Hi].
Qed.

(** X20: [add_content_to_page] sends the blocks of the content to the
    page in order, in requests of 1 to 100 blocks each: the children of
    its requests put end to end are exactly the blocks, and there are as
    many requests as the number of blocks divided by 100, rounded up (none
    when there is no block). *)
Theorem add_content_to_page_batches (notion_token page content : pystr) :
  flat_map appended_blocks (add_content_to_page notion_token page content)
  = markdown_to_notion_blocks content
  /\ Forall (appends_to page) (add_content_to_page notion_token page content)
  /\ length (add_content_to_page notion_token page content)
     = (length (markdown_to_notion_blocks content) + 99) / 100.
Proof.
  destruct (add_content_to_page_spec notion_token page content) as [H1 H2].
  split; [exact H1|]. split; [exact H2|].
  unfold add_content_to_page, py_range.
  rewrite !length_map, length_seq. f_equal. lia.
Qed.

(** X21: [write_to_notion] returns the page that the creation request
    gave; it sends that creation request first, for the database, the
    title and the URL, and then appends to the new page, in order and in
    requests of 1 to 100 blocks, exactly the blocks of the content.  The
    test on the content changes nothing for a string: an empty content has
    no block. *)
Theorem write_to_notion_requests (title url content notion_token database_id : pystr)
    (new_page : notion_page) :
  write_to_notion title url content notion_token database_id new_page
  = (new_page,
     pages_create database_id title url
       :: add_content_to_page notion_token (page_id new_page) content)
  /\ Forall (appends_to (page_id new_page))
       (add_content_to_page notion_token (page_id new_page) content)
  /\ flat_map appended_blocks
       (snd (write_to_notion title url content notion_token database_id
               new_page))
     = markdown_to_notion_blocks content.
Proof.
  destruct (add_content_to_page_spec notion_token (page_id new_page) content)
    as [H1 H2].
  assert (E : write_to_notion title url content notion_token database_id new_page
              = (new_page,
                 pages_create database_id title url
                   :: add_content_to_page notion_token (page_id new_page)
                        content)).
  { unfold write_to_notion. destruct content; reflexivity. }
  split; [exact E|]. split; [exact H2|].
  rewrite E. cbn [snd flat_map appended_blocks app]. exact H1.
Qed.

(** 250 list items go out as three requests of 100, 100 and 50 blocks. *)
Example add_content_to_page_sizes :
  map (fun r => length (appended_blocks r))
    (add_content_to_page (str "token") (str "page")
       (join [newline] (repeat (str "- item") 250)))
  = [100; 100; 50].
Proof. vm_compute. reflexivity. Qed.

(** X22: outside fenced regions indentation and trailing whitespace do
    not matter: in a text without fence lines, stripping every line
    beforehand gives the same blocks (an indented list item comes out as
    a plain list item). *)
Theorem blocks_from_strip (lines : list pystr) :
  Forall (fun l => is_fence_line l = false) lines ->
  blocks_from (map strip lines) = blocks_from lines.
Proof.
  induction lines as [|line rest IH]; intros F; [reflexivity|].
  inversion F as [|? ? Hl F']; subst.
  cbn [map]. rewrite !blocks_from_step.
  unfold is_fence_line, line_block in *. rewrite !strip_idem, Hl, (IH F').
  reflexivity.
Qed.

Lemma blocks_from_strip_witness :
  blocks_from (map strip [str "- top"; str "    - nested  "; str "   # h"])
  = blocks_from [str "- top"; str "    - nested  "; str "   # h"].
Proof.
  apply (blocks_from_strip [str "- top"; str "    - nested  "; str "   # h"]).
  repeat constructor.
Defined.
